(** * rpsgames: the connection / matchmaking / round state machine

    A shallow embedding of the WebSocket game server (the full server with
    accounts, and the earlier guest-only server) and the properties of its
    in-memory tables: [players], [playerModes], [quickMatchQueue],
    [privateGames], [matches], [playerReadyState], [authenticatedUsers].

    Scope of the embedding.
    - Display names, lobby identifiers and choices are JavaScript strings.
      Every handler takes the value of the connection variable
      [currentPlayer] as a string argument; a connection whose variable is
      still [null] is outside the model.
    - [data.ready] and [data.mode] are [undefined], [null], a boolean, an
      integer or a string; arrays and objects are outside the model.
    - The socket of a connection is an opaque handle ([conn]); a call
      [ws.send(JSON.stringify(m))] is recorded as the effect [Send ws m].
    - The account manager, the uuid generator and the random generator are
      collaborators: their answers are arguments of the handlers.
    - A [TypeError] raised by [players.get(x).ws] on an unregistered [x]
      ends the handler; the writes made before it persist.
    - Informational [console.log] lines are not recorded. *)

From stdpp Require Import gmap strings list fin_maps.

Local Open Scope string_scope.
Local Open Scope list_scope.

(** ** JavaScript values carried by [data.ready] and [data.mode] *)

Inductive jsval :=
| JUndefined
| JNull
| JBool (b : bool)
| JNum (z : Z)
| JStr (s : string).

Global Instance jsval_eq_dec : EqDecision jsval.
Proof. solve_decision. Defined.

(** Truthiness of a string: only the empty string is falsy. *)
Definition truthy_str (s : string) : bool :=
  match s with EmptyString => false | String _ _ => true end.

(** Truthiness of a value, as tested by [if (v)] and [v && w]. *)
Definition truthy (v : jsval) : bool :=
  match v with
  | JUndefined | JNull => false
  | JBool b => b
  | JNum z => negb (z =? 0)%Z
  | JStr s => truthy_str s
  end.

(** [v === w] on these values. *)
Definition strict_eq (v w : jsval) : bool := bool_decide (v = w).

(** Truthiness of a field holding a string or [null]. *)
Definition truthy_opt (o : option string) : bool :=
  match o with Some s => truthy_str s | None => false end.

(** ** Data model *)

Definition conn := nat.

(** [{ ws, choice }] *)
Record player := Player { ws : conn; choice : option string }.

(** [{ host, guest }] *)
Record game := Game { host : string; guest : option string }.

(** [{ userId, token, ws }] *)
Record authUser := AuthUser { userId : string; token : string; auth_ws : conn }.

Record state := State {
  players : gmap string player;
  playerModes : gmap string jsval;
  quickMatchQueue : list string;
  privateGames : gmap string game;
  matches : gmap string string;
  playerReadyState : gmap string jsval;
  authenticatedUsers : gmap string authUser
}.

Definition initial : state :=
  State ∅ ∅ [] ∅ ∅ ∅ ∅.

Definition with_players (f : gmap string player → gmap string player) (s : state) : state :=
  State (f (players s)) (playerModes s) (quickMatchQueue s) (privateGames s)
        (matches s) (playerReadyState s) (authenticatedUsers s).

Definition with_playerModes (f : gmap string jsval → gmap string jsval) (s : state) : state :=
  State (players s) (f (playerModes s)) (quickMatchQueue s) (privateGames s)
        (matches s) (playerReadyState s) (authenticatedUsers s).

Definition with_queue (f : list string → list string) (s : state) : state :=
  State (players s) (playerModes s) (f (quickMatchQueue s)) (privateGames s)
        (matches s) (playerReadyState s) (authenticatedUsers s).

Definition with_privateGames (f : gmap string game → gmap string game) (s : state) : state :=
  State (players s) (playerModes s) (quickMatchQueue s) (f (privateGames s))
        (matches s) (playerReadyState s) (authenticatedUsers s).

Definition with_matches (f : gmap string string → gmap string string) (s : state) : state :=
  State (players s) (playerModes s) (quickMatchQueue s) (privateGames s)
        (f (matches s)) (playerReadyState s) (authenticatedUsers s).

Definition with_ready (f : gmap string jsval → gmap string jsval) (s : state) : state :=
  State (players s) (playerModes s) (quickMatchQueue s) (privateGames s)
        (matches s) (f (playerReadyState s)) (authenticatedUsers s).

Definition with_auth (f : gmap string authUser → gmap string authUser) (s : state) : state :=
  State (players s) (playerModes s) (quickMatchQueue s) (privateGames s)
        (matches s) (playerReadyState s) (f (authenticatedUsers s)).

(** ** Outbound messages and effects *)

Inductive msg :=
| register_success (username tok : string)
| register_error (message : string)
| login_success (username tok : option string)
| login_error (message : string)
| logout_success
| logout_error (message : string)
| ai_result (message result playerChoice aiChoice : string)
| private_game_created (gameId : string)
| error (message : string)
| game_joined (opponent : string)
| game_result (message result : string) (playerChoice opponentChoice opponentName : option string)
| start_new_round
| opponent_left (message : string)
| online_count (count : nat).

Inductive effect :=
| Send (to : conn) (m : msg)
  (* broadcastOnlineCount: [online_count] to every registered socket *)
| BroadcastOnlineCount (count : nat)
  (* broadcastRanking: ranking query, later fanned out to the registered sockets *)
| BroadcastRanking
  (* UPDATE players SET score = score + 1 WHERE username = ? *)
| DbIncrementScore (username : string)
  (* guest login: SELECT score, then INSERT (username, 0) when there is no row *)
| DbEnsurePlayer (username : string)
  (* console.error(label, arg) *)
| ConsoleError (label arg : string).

(** ** The handler monad: state, effect trace, and [TypeError] *)

Definition M (A : Type) : Type := state → option A * state * list effect.

Definition ret {A} (a : A) : M A := λ s, (Some a, s, []).

Definition bind {A B} (m : M A) (k : A → M B) : M B := λ s,
  match m s with
  | (Some a, s1, o1) =>
      match k a s1 with (r, s2, o2) => (r, s2, o1 ++ o2) end
  | (None, s1, o1) => (None, s1, o1)
  end.

Definition throw {A} : M A := λ s, (None, s, []).
Definition get : M state := λ s, (Some s, s, []).
Definition modify (f : state → state) : M unit := λ s, (Some tt, f s, []).
Definition emit (e : effect) : M unit := λ s, (Some tt, s, [e]).

Declare Scope handler_scope.
Delimit Scope handler_scope with handler.
Notation "x ← m ; k" := (bind m (λ x, k))
  (at level 20, m at level 100, k at level 200, only parsing) : handler_scope.
Notation "m ;; k" := (bind m (λ _, k))
  (at level 100, k at level 200, only parsing, right associativity) : handler_scope.
Local Open Scope handler_scope.

(** Projections of a run. *)
Definition completed {A} (r : option A * state * list effect) : bool :=
  match r.1.1 with Some _ => true | None => false end.
Definition final {A} (r : option A * state * list effect) : state := r.1.2.
Definition trace {A} (r : option A * state * list effect) : list effect := r.2.

(** ** Primitive operations on the tables *)

(** [players.has(x)] *)
Definition has_player (s : state) (x : string) : bool :=
  bool_decide (is_Some (players s !! x)).

(** [players.get(x).ws.send(JSON.stringify(m))] *)
Definition send_to (x : string) (m : msg) : M unit := λ s,
  match players s !! x with
  | Some p => (Some tt, s, [Send (ws p) m])
  | None => (None, s, [])
  end.

(** [players.get(x).choice = c] *)
Definition set_choice (x : string) (c : option string) : M unit := λ s,
  match players s !! x with
  | Some p => (Some tt, with_players (<[x := Player (ws p) c]>) s, [])
  | None => (None, s, [])
  end.

(** [playerReadyState.get(x)] *)
Definition ready_of (s : state) (x : string) : jsval :=
  default JUndefined (playerReadyState s !! x).

Definition broadcastRanking : M unit := emit BroadcastRanking.

Definition broadcastOnlineCount : M unit :=
  s ← get; emit (BroadcastOnlineCount (size (players s))).

(** ** Pure game rules *)

(** The three strings returned by [getResult]. *)
Inductive result := res_draw | res_player1 | res_player2.

Definition getResult (choice1 choice2 : string) : result :=
  if bool_decide (choice1 = choice2) then res_draw
  else if (bool_decide (choice1 = "pierre") && bool_decide (choice2 = "ciseaux"))
       || (bool_decide (choice1 = "feuille") && bool_decide (choice2 = "pierre"))
       || (bool_decide (choice1 = "ciseaux") && bool_decide (choice2 = "feuille"))
  then res_player1
  else res_player2.

Definition choices : list string := ["pierre"; "feuille"; "ciseaux"].

(** [["pierre", "feuille", "ciseaux"].includes(c)] *)
Definition valid_choice (c : string) : bool := bool_decide (c ∈ choices).

(** [choices[Math.floor(Math.random() * choices.length)]], the random index
    being supplied by the caller. *)
Definition getRandomChoice (rnd : nat) : string :=
  default "pierre" (choices !! (rnd mod 3)).

(** ** Blocks shared by the handlers *)

Definition msg_opponent_left : string := "Votre adversaire a quitté la partie.".
Definition msg_name_taken : string :=
  "Ce pseudo est déjà utilisé. Veuillez en choisir un autre.".
Definition msg_session_expired : string :=
  "Session expirée, veuillez vous reconnecter".
Definition msg_no_such_game : string :=
  "Cette partie privée n'existe pas ou a été fermée.".
Definition msg_own_game : string :=
  "Vous ne pouvez pas rejoindre votre propre partie.".
Definition msg_game_full : string :=
  "Cette partie privée est déjà complète.".
Definition msg_invalid_choice : string := "Choix invalide reçu :".

(** [opponent && opponent !== "IA" && players.has(opponent)] *)
Definition live_opponent (s : state) (o : option string) : bool :=
  match o with
  | Some opp => truthy_str opp && negb (bool_decide (opp = "IA")) && has_player s opp
  | None => false
  end.

(** The block that opens [leave_game], [logout] and [close]:
    tell the opponent, if there is a live one, that its peer left. *)
Definition notify_opponent_left (cur : string) : M unit :=
  s ← get;
  match matches s !! cur with
  | Some opp =>
      if live_opponent s (Some opp)
      then send_to opp (opponent_left msg_opponent_left)
      else ret tt
  | None => ret tt
  end.

Definition removePlayerFromMatch (p : string) : M unit :=
  s ← get;
  match matches s !! p with
  | Some opponent =>
      if truthy_str opponent then
        modify (with_matches (delete p));;
        if negb (bool_decide (opponent = "IA"))
        then modify (with_matches (delete opponent))
        else ret tt
      else ret tt
  | None => ret tt
  end.

(** [const i = q.indexOf(x); if (i !== -1) q.splice(i, 1)] *)
Fixpoint remove_first (x : string) (q : list string) : list string :=
  match q with
  | [] => []
  | y :: q' => if bool_decide (y = x) then q' else y :: remove_first x q'
  end.

Definition remove_from_queue (cur : string) : M unit :=
  modify (with_queue (remove_first cur)).

(** [for (const [gameId, game] of privateGames.entries())
       if (game.host === cur) privateGames.delete(gameId)] *)
Definition remove_hosted (cur : string) : M unit :=
  modify (with_privateGames (filter (λ kv : string * game, host kv.2 ≠ cur))).

(** One turn of the [while] loop of [matchQuickPlayers], after the two
    [shift()] calls returned [player1] and [player2]. *)
Definition match_pair (player1 player2 : string) : M unit :=
  s ← get;
  if has_player s player1 && has_player s player2 then
    modify (with_matches (λ m, <[player2 := player1]> (<[player1 := player2]> m)));;
    modify (with_ready (λ r, <[player2 := JBool false]> (<[player1 := JBool false]> r)));;
    send_to player1 (game_joined player2);;
    send_to player2 (game_joined player1)
  else ret tt.

(** [while (quickMatchQueue.length >= 2) { shift; shift; ... }], by recursion
    on the queue that the loop consumes. *)
Fixpoint drain (q : list string) : M unit :=
  match q with
  | player1 :: player2 :: rest =>
      modify (with_queue (λ _, rest));;
      match_pair player1 player2;;
      drain rest
  | _ => ret tt
  end.

Definition matchQuickPlayers : M unit :=
  s ← get; drain (quickMatchQueue s).

(** ** Handlers of the server with accounts *)

(** Answer of the account manager to [register], [login] or [verifyToken]:
    the resolved [result.data], or the rejection message. *)
Inductive auth_answer :=
| AuthOk (username uid tok : string)
| AuthErr (message : string).

(** The registration that follows a resolved answer, common to [register]
    and to both authenticated logins. *)
Definition install_authenticated (w : conn) (username uid tok : string) : M unit :=
  modify (with_auth (<[username := AuthUser uid tok w]>));;
  modify (with_players (<[username := Player w None]>)).

Definition register (w : conn) (ans : auth_answer) : M unit :=
  match ans with
  | AuthOk username uid tok =>
      install_authenticated w username uid tok;;
      emit (Send w (register_success username tok));;
      broadcastOnlineCount;;
      broadcastRanking
  | AuthErr message => emit (Send w (register_error message))
  end.

(** [login] with a truthy [data.token]; the session keeps [data.token]. *)
Definition login_token (w : conn) (data_token : string) (ans : auth_answer) : M unit :=
  match ans with
  | AuthOk username uid _ =>
      install_authenticated w username uid data_token;;
      emit (Send w (login_success (Some username) None));;
      broadcastOnlineCount;;
      broadcastRanking
  | AuthErr _ => emit (Send w (login_error msg_session_expired))
  end.

(** [login] with [data.username && data.password]. *)
Definition login_password (w : conn) (ans : auth_answer) : M unit :=
  match ans with
  | AuthOk username uid tok =>
      install_authenticated w username uid tok;;
      emit (Send w (login_success (Some username) (Some tok)));;
      broadcastOnlineCount;;
      broadcastRanking
  | AuthErr message => emit (Send w (login_error message))
  end.

(** Guest [login]; [currentPlayer] has already been assigned [username]. *)
Definition login_guest (w : conn) (username : string) : M unit :=
  s ← get;
  if has_player s username then emit (Send w (login_error msg_name_taken))
  else
    modify (with_players (<[username := Player w None]>));;
    emit (DbEnsurePlayer username);;
    emit (Send w (login_success None None));;
    broadcastRanking;;
    broadcastOnlineCount.

Definition login (w : conn) (data_token : option string) (data_username : string)
    (data_password : option string) (ans : auth_answer) : M unit :=
  match data_token with
  | Some t =>
      if truthy_str t then login_token w t ans
      else if truthy_str data_username && truthy_opt data_password
      then login_password w ans
      else login_guest w data_username
  | None =>
      if truthy_str data_username && truthy_opt data_password
      then login_password w ans
      else login_guest w data_username
  end.

(** [logout]; [logout_answer] is the rejection message of the account
    manager, if it rejects. *)
Definition logout (w : conn) (cur : string) (currentToken : option string)
    (logout_answer : option string) : M unit :=
  (if truthy_opt currentToken then
     match logout_answer with
     | None => modify (with_auth (delete cur));; emit (Send w logout_success)
     | Some message => emit (Send w (logout_error message))
     end
   else ret tt);;
  if truthy_str cur then
    notify_opponent_left cur;;
    modify (with_players (delete cur));;
    modify (with_playerModes (delete cur));;
    modify (with_ready (delete cur));;
    removePlayerFromMatch cur;;
    remove_from_queue cur;;
    remove_hosted cur;;
    broadcastOnlineCount
  else ret tt.

Definition select_mode (cur : string) (mode : jsval) : M unit :=
  modify (with_playerModes (<[cur := mode]>)).

Definition play_ai (cur : string) (data_choice : string) (rnd : nat) : M unit :=
  if negb (valid_choice data_choice)
  then emit (ConsoleError msg_invalid_choice data_choice)
  else
    let aiChoice := getRandomChoice rnd in
    match getResult data_choice aiChoice with
    | res_draw =>
        send_to cur (ai_result ("Égalité ! (" +:+ data_choice +:+ " contre " +:+ aiChoice +:+ ")")
                               "draw" data_choice aiChoice)
    | res_player1 =>
        emit (DbIncrementScore cur);;
        send_to cur (ai_result ("Vous avez gagné ! (" +:+ data_choice +:+ " bat " +:+ aiChoice +:+ ")")
                               "player" data_choice aiChoice)
    | res_player2 =>
        send_to cur (ai_result ("Vous avez perdu ! (" +:+ aiChoice +:+ " bat " +:+ data_choice +:+ ")")
                               "ai" data_choice aiChoice)
    end;;
    broadcastRanking.

Definition quick_match (cur : string) : M unit :=
  s ← get;
  (if bool_decide (cur ∈ quickMatchQueue s) then ret tt
   else modify (with_queue (λ q, q ++ [cur])));;
  matchQuickPlayers.

Definition create_private_game (cur : string) (gameId : string) : M unit :=
  modify (with_privateGames (<[gameId := Game cur None]>));;
  send_to cur (private_game_created gameId).

Definition join_private_game (cur : string) (gameId : string) : M unit :=
  s ← get;
  match privateGames s !! gameId with
  | None => send_to cur (error msg_no_such_game)
  | Some g =>
      if bool_decide (host g = cur) then send_to cur (error msg_own_game)
      else if truthy_opt (guest g) then send_to cur (error msg_game_full)
      else
        modify (with_privateGames (<[gameId := Game (host g) (Some cur)]>));;
        modify (with_matches (λ m, <[cur := host g]> (<[host g := cur]> m)));;
        modify (with_ready (λ r, <[cur := JBool false]> (<[host g := JBool false]> r)));;
        send_to (host g) (game_joined cur);;
        send_to cur (game_joined (host g))
  end.

(** The two [game_result] notifications of a resolved round and the score
    update between them, for the sender [cur] who played [c] against
    [opponent] who had played [oc]. *)
Definition announce_result (cur c opponent oc : string) : M unit :=
  match getResult c oc with
  | res_draw =>
      send_to cur (game_result ("Égalité ! (" +:+ c +:+ " contre " +:+ oc +:+ ")") "draw"
                               (Some c) (Some oc) (Some opponent));;
      send_to opponent (game_result ("Égalité ! (" +:+ oc +:+ " contre " +:+ c +:+ ")") "draw"
                                    (Some oc) (Some c) (Some cur))
  | res_player1 =>
      emit (DbIncrementScore cur);;
      send_to cur (game_result ("Vous avez gagné ! (" +:+ c +:+ " bat " +:+ oc +:+ ")") "player"
                               (Some c) (Some oc) (Some opponent));;
      send_to opponent (game_result ("Vous avez perdu ! (" +:+ c +:+ " bat " +:+ oc +:+ ")") "opponent"
                                    (Some oc) (Some c) (Some cur))
  | res_player2 =>
      emit (DbIncrementScore opponent);;
      send_to cur (game_result ("Vous avez perdu ! (" +:+ oc +:+ " bat " +:+ c +:+ ")") "opponent"
                               (Some c) (Some oc) (Some opponent));;
      send_to opponent (game_result ("Vous avez gagné ! (" +:+ oc +:+ " bat " +:+ c +:+ ")") "player"
                                    (Some oc) (Some c) (Some cur))
  end.

Definition play_online (cur : string) (data_choice : string) : M unit :=
  if negb (valid_choice data_choice)
  then emit (ConsoleError msg_invalid_choice data_choice)
  else
    s ← get;
    if has_player s cur then
      set_choice cur (Some data_choice);;
      s ← get;
      match matches s !! cur with
      | Some opponent =>
          if truthy_str opponent && has_player s opponent then
            match players s !! opponent with
            | Some o =>
                match choice o with
                | Some opponentChoice =>
                    if truthy_str opponentChoice then
                      announce_result cur data_choice opponent opponentChoice;;
                      set_choice cur None;;
                      set_choice opponent None;;
                      broadcastRanking
                    else ret tt
                | None => ret tt
                end
            | None => throw
            end
          else ret tt
      | None => ret tt
      end
    else ret tt.

Definition ready_for_next_round (cur : string) (data_ready : jsval) : M unit :=
  modify (with_ready (<[cur := data_ready]>));;
  s ← get;
  if live_opponent s (matches s !! cur) then
    match matches s !! cur with
    | Some opponent =>
        if truthy (ready_of s cur) && truthy (ready_of s opponent) then
          send_to cur start_new_round;;
          send_to opponent start_new_round;;
          modify (with_ready (<[cur := JBool false]>));;
          modify (with_ready (<[opponent := JBool false]>))
        else if negb (strict_eq (ready_of s cur) (ready_of s opponent)) then
          if truthy (ready_of s cur)
          then send_to cur (opponent_left msg_opponent_left)
          else ret tt
        else ret tt
    | None => ret tt
    end
  else ret tt.

Definition leave_game (cur : string) : M unit :=
  notify_opponent_left cur;;
  removePlayerFromMatch cur;;
  remove_from_queue cur;;
  remove_hosted cur.

(** The [close] event of the socket. *)
Definition close (cur : string) : M unit :=
  if truthy_str cur then
    notify_opponent_left cur;;
    modify (with_players (delete cur));;
    modify (with_playerModes (delete cur));;
    modify (with_ready (delete cur));;
    modify (with_auth (delete cur));;
    removePlayerFromMatch cur;;
    remove_from_queue cur;;
    remove_hosted cur;;
    broadcastOnlineCount
  else ret tt.

(** ** Handlers of the guest-only server, where they differ *)

Module Legacy.

Definition login (w : conn) (username : string) : M unit := login_guest w username.

Definition match_pair (player1 player2 : string) : M unit :=
  s ← get;
  if has_player s player1 && has_player s player2 then
    modify (with_matches (λ m, <[player2 := player1]> (<[player1 := player2]> m)));;
    send_to player1 (game_joined player2);;
    send_to player2 (game_joined player1)
  else ret tt.

Fixpoint drain (q : list string) : M unit :=
  match q with
  | p1 :: p2 :: rest =>
      modify (with_queue (λ _, rest));;
      match_pair p1 p2;;
      drain rest
  | _ => ret tt
  end.

Definition matchQuickPlayers : M unit :=
  s ← get; drain (quickMatchQueue s).

Definition quick_match (cur : string) : M unit :=
  s ← get;
  (if bool_decide (cur ∈ quickMatchQueue s) then ret tt
   else modify (with_queue (λ q, q ++ [cur])));;
  matchQuickPlayers.

Definition join_private_game (cur : string) (gameId : string) : M unit :=
  s ← get;
  match privateGames s !! gameId with
  | None => send_to cur (error msg_no_such_game)
  | Some g =>
      if bool_decide (host g = cur) then send_to cur (error msg_own_game)
      else if truthy_opt (guest g) then send_to cur (error msg_game_full)
      else
        modify (with_privateGames (<[gameId := Game (host g) (Some cur)]>));;
        modify (with_matches (λ m, <[cur := host g]> (<[host g := cur]> m)));;
        send_to (host g) (game_joined cur);;
        send_to cur (game_joined (host g))
  end.

Definition announce_result (cur c opponent oc : string) : M unit :=
  match getResult c oc with
  | res_draw =>
      send_to cur (game_result ("Égalité ! (" +:+ c +:+ " contre " +:+ oc +:+ ")") "draw"
                               None None None);;
      send_to opponent (game_result ("Égalité ! (" +:+ oc +:+ " contre " +:+ c +:+ ")") "draw"
                                    None None None)
  | res_player1 =>
      emit (DbIncrementScore cur);;
      send_to cur (game_result ("Vous avez gagné ! (" +:+ c +:+ " bat " +:+ oc +:+ ")") "player"
                               None None None);;
      send_to opponent (game_result ("Vous avez perdu ! (" +:+ c +:+ " bat " +:+ oc +:+ ")") "opponent"
                                    None None None)
  | res_player2 =>
      emit (DbIncrementScore opponent);;
      send_to cur (game_result ("Vous avez perdu ! (" +:+ oc +:+ " bat " +:+ c +:+ ")") "opponent"
                               None None None);;
      send_to opponent (game_result ("Vous avez gagné ! (" +:+ oc +:+ " bat " +:+ c +:+ ")") "player"
                                    None None None)
  end.

Definition play_online (cur : string) (data_choice : string) : M unit :=
  if negb (valid_choice data_choice)
  then emit (ConsoleError msg_invalid_choice data_choice)
  else
    s ← get;
    if has_player s cur then
      set_choice cur (Some data_choice);;
      s ← get;
      match matches s !! cur with
      | Some opponent =>
          if truthy_str opponent && has_player s opponent then
            match players s !! opponent with
            | Some o =>
                match choice o with
                | Some opponentChoice =>
                    if truthy_str opponentChoice then
                      announce_result cur data_choice opponent opponentChoice;;
                      set_choice cur None;;
                      set_choice opponent None;;
                      broadcastRanking
                    else ret tt
                | None => ret tt
                end
            | None => throw
            end
          else ret tt
      | None => ret tt
      end
    else ret tt.

Definition close (cur : string) : M unit :=
  if truthy_str cur then
    notify_opponent_left cur;;
    modify (with_players (delete cur));;
    modify (with_playerModes (delete cur));;
    removePlayerFromMatch cur;;
    remove_from_queue cur;;
    remove_hosted cur;;
    broadcastOnlineCount
  else ret tt.

End Legacy.

(** ** Connections and inbound events

    Each connection closes over its own [currentPlayer] and [currentToken].
    [sessions] records them for the sockets whose [currentPlayer] is a
    string; a socket without an entry has [currentPlayer === null] (and then
    [currentToken === null] too). *)

Record session := Session { currentPlayer : string; currentToken : option string }.

Record world := World { tables : state; sessions : gmap conn session }.

Definition boot : world := World initial ∅.

Inductive inbound :=
| In_register (ans : auth_answer)
| In_login (data_token : option string) (data_username : string)
           (data_password : option string) (ans : auth_answer)
| In_logout (logout_answer : option string)
| In_select_mode (mode : jsval)
| In_play_ai (data_choice : string) (rnd : nat)
| In_quick_match
| In_create_private_game (uuid : string)
| In_join_private_game (gameId : string)
| In_play_online (data_choice : string)
| In_ready_for_next_round (data_ready : jsval)
| In_leave_game
| In_close.

(** The handler run by an event that needs a logged-in connection. *)
Definition dispatch (w : conn) (c : session) (ev : inbound) : M unit :=
  let cur := currentPlayer c in
  match ev with
  | In_register ans => register w ans
  | In_login t u p ans => login w t u p ans
  | In_logout a => logout w cur (currentToken c) a
  | In_select_mode mode => select_mode cur mode
  | In_play_ai ch rnd => play_ai cur ch rnd
  | In_quick_match => quick_match cur
  | In_create_private_game uuid => create_private_game cur uuid
  | In_join_private_game gameId => join_private_game cur gameId
  | In_play_online ch => play_online cur ch
  | In_ready_for_next_round r => ready_for_next_round cur r
  | In_leave_game => leave_game cur
  | In_close => close cur
  end.

(** The assignments a [register] or [login] makes to the connection
    variables. The guest branch assigns [currentPlayer] before it looks the
    name up, so the assignment also happens when the login is refused. *)
Definition session_after_auth (old : option session) (ev : inbound) : option session :=
  match ev with
  | In_register (AuthOk u _ t) => Some (Session u (Some t))
  | In_login data_token data_username data_password ans =>
      if truthy_opt data_token then
        match ans, data_token with
        | AuthOk u _ _, Some t => Some (Session u (Some t))
        | _, _ => old
        end
      else if truthy_str data_username && truthy_opt data_password then
        match ans with
        | AuthOk u _ t => Some (Session u (Some t))
        | AuthErr _ => old
        end
      else Some (Session data_username (old ≫= currentToken))
  | _ => old
  end.

(** One inbound event on socket [w]. [None]: the event uses
    [currentPlayer] as a key and the connection has none. With no
    [currentPlayer] and no [currentToken], [logout] and [close] do nothing.
    After [close] the handle has no session; an event on it stands for a
    new connection given the same handle. *)
Definition on_event (w : conn) (ev : inbound) (W : world) : option (world * list effect) :=
  match ev with
  | In_register ans =>
      let r := register w ans (tables W) in
      Some (World (final r)
                  (match session_after_auth (sessions W !! w) ev with
                   | Some c => <[w := c]> (sessions W)
                   | None => sessions W
                   end), trace r)
  | In_login t u p ans =>
      let r := login w t u p ans (tables W) in
      Some (World (final r)
                  (match session_after_auth (sessions W !! w) ev with
                   | Some c => <[w := c]> (sessions W)
                   | None => sessions W
                   end), trace r)
  | _ =>
      match sessions W !! w with
      | None =>
          match ev with
          | In_logout _ | In_close => Some (W, [])
          | _ => None
          end
      | Some c =>
          let r := dispatch w c ev (tables W) in
          let sessions' :=
            match ev with
            | In_logout _ =>
                if truthy_str (currentPlayer c) then delete w (sessions W) else sessions W
            | In_close => delete w (sessions W)
            | _ => sessions W
            end in
          Some (World (final r) sessions', trace r)
      end
  end.

(** A run of the server on a sequence of events. *)
Fixpoint run (evs : list (conn * inbound)) (W : world) : option world :=
  match evs with
  | [] => Some W
  | (w, ev) :: evs' =>
      match on_event w ev W with
      | Some (W', _) => run evs' W'
      | None => None
      end
  end.

Definition reachable (W : world) : Prop := ∃ evs, run evs boot = Some W.

(** ** Connections and inbound events of the guest-only server

    Its connections close over [currentPlayer] only; [sessions] maps a
    socket to that name, and a socket without an entry has
    [currentPlayer === null]. The handlers of [select_mode], [play_ai],
    [create_private_game] and [leave_game] are those of the server with
    accounts, word for word. *)

Module LegacyLoop.

Record world := World { tables : state; sessions : gmap conn string }.

Definition boot : world := World initial ∅.

Inductive inbound :=
| In_login (username : string)
| In_select_mode (mode : jsval)
| In_play_ai (data_choice : string) (rnd : nat)
| In_quick_match
| In_create_private_game (uuid : string)
| In_join_private_game (gameId : string)
| In_play_online (data_choice : string)
| In_leave_game
| In_close.

Definition dispatch (w : conn) (cur : string) (ev : inbound) : M unit :=
  match ev with
  | In_login username => Legacy.login w username
  | In_select_mode mode => select_mode cur mode
  | In_play_ai ch rnd => play_ai cur ch rnd
  | In_quick_match => Legacy.quick_match cur
  | In_create_private_game uuid => create_private_game cur uuid
  | In_join_private_game gameId => Legacy.join_private_game cur gameId
  | In_play_online ch => Legacy.play_online cur ch
  | In_leave_game => leave_game cur
  | In_close => Legacy.close cur
  end.

(** One inbound event on socket [w]. [login] assigns [currentPlayer] before
    the name is looked up. [None]: the event uses [currentPlayer] as a key
    and the connection has none; [close] then does nothing. *)
Definition on_event (w : conn) (ev : inbound) (W : world) : option (world * list effect) :=
  match ev with
  | In_login username =>
      let r := Legacy.login w username (tables W) in
      Some (World (final r) (<[w := username]> (sessions W)), trace r)
  | _ =>
      match sessions W !! w with
      | None =>
          match ev with
          | In_close => Some (W, [])
          | _ => None
          end
      | Some cur =>
          let r := dispatch w cur ev (tables W) in
          let sessions' :=
            match ev with
            | In_close => delete w (sessions W)
            | _ => sessions W
            end in
          Some (World (final r) sessions', trace r)
      end
  end.

Fixpoint run (evs : list (conn * inbound)) (W : world) : option world :=
  match evs with
  | [] => Some W
  | (w, ev) :: evs' =>
      match on_event w ev W with
      | Some (W', _) => run evs' W'
      | None => None
      end
  end.

Definition reachable (W : world) : Prop := ∃ evs, run evs boot = Some W.

End LegacyLoop.

(** * Vocabulary of the statements *)

(** ** Traces *)

(** Some message is sent on socket [w]. *)
Definition sent_to (w : conn) (t : list effect) : Prop := ∃ m, Send w m ∈ t.

(** The score updates a resolved round requests. *)
Definition score_updates (cur c opponent oc : string) : list effect :=
  match getResult c oc with
  | res_draw => []
  | res_player1 => [DbIncrementScore cur]
  | res_player2 => [DbIncrementScore opponent]
  end.

(** Recognisers of messages and effects. *)
Definition is_game_result (m : msg) : Prop :=
  match m with game_result _ _ _ _ _ => True | _ => False end.

(** ** Logins *)

(** The [login] message of a guest: no token, no password. *)
Definition guest_login (username : string) : inbound :=
  In_login None username None (AuthErr "").

Definition is_login_error (e : effect) : bool :=
  match e with Send _ (login_error _) => true | _ => false end.

(** Socket 2 is logged in over the registered "alice": the event is
    accepted without a [login_error], the record of "alice" now belongs to
    socket 2, and both connections act as "alice". *)
Definition logged_in_over_alice (W : world) (ev : inbound) : Prop :=
  match on_event 2 ev W with
  | Some (W2, t) =>
      players (tables W2) !! "alice" = Some (Player 2 None)
      ∧ existsb is_login_error t = false
      ∧ currentPlayer <$> sessions W2 !! 1 = Some "alice"
      ∧ currentPlayer <$> sessions W2 !! 2 = Some "alice"
  | None => False
  end.

(** ** Teardown *)

(** What [removePlayerFromMatch p] leaves of [matches]. *)
Definition unpaired (p : string) (m : gmap string string) : gmap string string :=
  match m !! p with
  | Some o =>
      if truthy_str o
      then if bool_decide (o = "IA") then delete p m else delete o (delete p m)
      else m
  | None => m
  end.

(** The notification the teardown block sends for the opponent of [cur]. *)
Definition opponent_notice (s : state) (cur : string) : list effect :=
  match matches s !! cur with
  | Some o =>
      if live_opponent s (Some o) then
        match players s !! o with
        | Some r => [Send (ws r) (opponent_left msg_opponent_left)]
        | None => []
        end
      else []
  | None => []
  end.

(** The tables after the teardown block of [leave_game]. *)
Definition torn_down (cur : string) (s : state) : state :=
  State (players s) (playerModes s)
        (remove_first cur (quickMatchQueue s))
        (filter (λ kv : string * game, host kv.2 ≠ cur) (privateGames s))
        (unpaired cur (matches s))
        (playerReadyState s) (authenticatedUsers s).

(** The four [delete(currentPlayer)] of the [close] handler. *)
Definition unregistered (cur : string) (s : state) : state :=
  State (delete cur (players s)) (delete cur (playerModes s))
        (quickMatchQueue s) (privateGames s) (matches s)
        (delete cur (playerReadyState s)) (delete cur (authenticatedUsers s)).

Definition is_opponent_left (e : effect) : bool :=
  match e with Send _ (opponent_left _) => true | _ => false end.

(** ** Invariants *)

(** Every run of [m] from a state in [Pre] ends, thrown or not, in a state
    in [Post]. *)
Definition hoare {A} (Pre : state → Prop) (m : M A) (Post : state → Prop) : Prop :=
  ∀ s, Pre s → Post (final (m s)).

(** [P] is kept by every run of [m]. *)
Abbreviation preserved P m := (hoare P m P).

(** No name is queued twice. *)
Definition queue_NoDup (s : state) : Prop := NoDup (quickMatchQueue s).

(** ** Private lobbies *)

(** The three refusals of [join_private_game]. *)
Inductive join_refusal := NotFound | SelfJoin | Full.

(** The text of the [error] message of each refusal. *)
Definition refusal_message (e : join_refusal) : string :=
  match e with
  | NotFound => msg_no_such_game
  | SelfJoin => msg_own_game
  | Full => msg_game_full
  end.

(** The refusal the three checks produce, in the order of the handler. *)
Definition join_check (s : state) (cur gameId : string) : option join_refusal :=
  match privateGames s !! gameId with
  | None => Some NotFound
  | Some g =>
      if bool_decide (host g = cur) then Some SelfJoin
      else if truthy_opt (guest g) then Some Full
      else None
  end.



(** ** Quick-match draining and pairing *)

(** The couples the loop shifts out of a queue, oldest first. *)
Fixpoint couples (q : list string) : list (string * string) :=
  match q with
  | x :: y :: q' => (x, y) :: couples q'
  | _ => []
  end.

(** What the loop leaves in the queue. *)
Fixpoint leftover (q : list string) : list string :=
  match q with
  | _ :: _ :: q' => leftover q'
  | _ => q
  end.

(** [players.has(c.1) && players.has(c.2)] *)
Definition both_registered (P : gmap string player) (c : string * string) : bool :=
  bool_decide (is_Some (P !! c.1)) && bool_decide (is_Some (P !! c.2)).

(** The couples that become matches: those with both names registered. *)
Definition formed (P : gmap string player) (q : list string) : list (string * string) :=
  List.filter (both_registered P) (couples q).

(** [matches.set(a, b); matches.set(b, a)] *)
Definition install_pair (m : gmap string string) (c : string * string) : gmap string string :=
  <[c.2 := c.1]> (<[c.1 := c.2]> m).

(** [playerReadyState.set(a, false); playerReadyState.set(b, false)] *)
Definition reset_votes (r : gmap string jsval) (c : string * string) : gmap string jsval :=
  <[c.2 := JBool false]> (<[c.1 := JBool false]> r).

(** The two [game_joined] notifications of a formed couple. *)
Definition announce_pair (P : gmap string player) (c : string * string) : list effect :=
  match P !! c.1, P !! c.2 with
  | Some a, Some b => [Send (ws a) (game_joined c.2); Send (ws b) (game_joined c.1)]
  | _, _ => []
  end.

(** The tables after the loop has consumed the queue [q]. *)
Definition drained (s : state) (q : list string) : state :=
  State (players s) (playerModes s) (leftover q) (privateGames s)
        (foldl install_pair (matches s) (formed (players s) q))
        (foldl reset_votes (playerReadyState s) (formed (players s) q))
        (authenticatedUsers s).

(** The same on the guest-only server, which keeps no ready votes. *)
Definition legacy_drained (s : state) (q : list string) : state :=
  State (players s) (playerModes s) (leftover q) (privateGames s)
        (foldl install_pair (matches s) (formed (players s) q))
        (playerReadyState s) (authenticatedUsers s).

(** Every entry has its reciprocal, except those whose value is "IA". *)
Definition symmetric (m : gmap string string) : Prop :=
  map_Forall (λ x y, y = "IA" ∨ m !! y = Some x) m.

(** ** Further vocabulary *)

(** At most one name waits in the queue. *)
Definition queue_short (s : state) : Prop := (length (quickMatchQueue s) ≤ 1)%nat.

(** No name is its own opponent. *)
Definition no_self_match (s : state) : Prop := ∀ x, matches s !! x ≠ Some x.

(** Every pending choice is one of the three symbols. *)
Definition choices_valid (s : state) : Prop :=
  ∀ x p c, players s !! x = Some p → choice p = Some c → valid_choice c = true.

(** No lobby has its host as guest. *)
Definition guests_differ (s : state) : Prop :=
  ∀ t g, privateGames s !! t = Some g → guest g ≠ Some (host g).

(** The tables after the teardown block of [logout], which keeps
    [authenticatedUsers]. *)
Definition logged_out (cur : string) (s : state) : state :=
  State (delete cur (players s)) (delete cur (playerModes s))
        (remove_first cur (quickMatchQueue s))
        (filter (λ kv : string * game, host kv.2 ≠ cur) (privateGames s))
        (unpaired cur (matches s))
        (delete cur (playerReadyState s)) (authenticatedUsers s).

(** The answer [logout] sends before its teardown block: none unless the
    connection holds a token, then [logout_success], or [logout_error] with
    the message of the account manager when it rejects. *)
Definition logout_ack (w : conn) (currentToken logout_answer : option string) : list effect :=
  if truthy_opt currentToken then
    match logout_answer with
    | None => [Send w logout_success]
    | Some message => [Send w (logout_error message)]
    end
  else [].

(** The tables after [logout] has answered: an accepted logout of a
    connection holding a token deletes the record in [authenticatedUsers]. *)
Definition logout_answered (cur : string) (currentToken logout_answer : option string)
    (s : state) : state :=
  if truthy_opt currentToken then
    match logout_answer with
    | None => with_auth (delete cur) s
    | Some _ => s
    end
  else s.

(** [getResult] with its arguments exchanged. *)
Definition mirror (r : result) : result :=
  match r with
  | res_draw => res_draw
  | res_player1 => res_player2
  | res_player2 => res_player1
  end.

(** The [result] field of [ai_result] for each outcome. *)
Definition ai_outcome (r : result) : string :=
  match r with
  | res_draw => "draw"
  | res_player1 => "player"
  | res_player2 => "ai"
  end.

(** The score update of a round between [a], who played [ca], and [b], who
    played [cb]. *)
Definition round_score (a ca b cb : string) : list effect :=
  match getResult ca cb with
  | res_draw => []
  | res_player1 => [DbIncrementScore a]
  | res_player2 => [DbIncrementScore b]
  end.

(** * Properties *)

(** ** Winner determination *)

Lemma valid_choice_cases c :
  valid_choice c = true → c = "pierre" ∨ c = "feuille" ∨ c = "ciseaux".
Proof.
  unfold valid_choice, choices. intros H%bool_decide_eq_true.
  rewrite !elem_of_cons, elem_of_nil in H. tauto.
Qed.

(** C4. On the three recognised symbols (rock = "pierre", paper = "feuille",
    scissors = "ciseaux"): equal symbols draw; rock beats scissors, scissors
    beats paper, paper beats rock; and for two distinct recognised symbols
    the first wins one way round exactly when the second wins the other
    way round. *)
Theorem getResult_rules :
  (∀ x, valid_choice x = true → getResult x x = res_draw)
  ∧ getResult "pierre" "ciseaux" = res_player1
  ∧ getResult "ciseaux" "feuille" = res_player1
  ∧ getResult "feuille" "pierre" = res_player1
  ∧ (∀ x y, valid_choice x = true → valid_choice y = true → x ≠ y →
       (getResult x y = res_player1 ↔ getResult y x = res_player2)).
Proof.
  split; [| repeat split; try reflexivity].
  - intros x _. unfold getResult. by rewrite bool_decide_eq_true_2.
  - intros Hxy.
    destruct (valid_choice_cases x) as [-> | [-> | ->]]; [done | | |];
      destruct (valid_choice_cases y) as [-> | [-> | ->]]; try done;
      revert Hxy; by vm_compute.
  - intros Hyx.
    destruct (valid_choice_cases x) as [-> | [-> | ->]]; [done | | |];
      destruct (valid_choice_cases y) as [-> | [-> | ->]]; try done;
      revert Hyx; by vm_compute.
Qed.

Lemma getResult_rules_witness :
  getResult "feuille" "feuille" = res_draw
  ∧ (getResult "feuille" "ciseaux" = res_player1 ↔ getResult "ciseaux" "feuille" = res_player2).
Proof.
  destruct getResult_rules as (Hdraw & _ & _ & _ & Hanti).
  split.
  - apply Hdraw. reflexivity.
  - apply Hanti; [reflexivity | reflexivity | discriminate].
Defined.

(** ** Running the monad *)

Lemma has_player_true s x : has_player s x = true ↔ is_Some (players s !! x).
Proof. unfold has_player. apply bool_decide_eq_true. Qed.

Lemma has_player_lookup s x p : players s !! x = Some p → has_player s x = true.
Proof. intros H. apply has_player_true. by exists p. Qed.

Lemma bind_get {B} (k : state → M B) s : bind get k s = k s s.
Proof. unfold bind, get. by destruct (k s s) as [[? ?] ?]. Qed.

Lemma bind_modify {B} (f : state → state) (k : unit → M B) s :
  bind (modify f) k s = k tt (f s).
Proof. unfold bind, modify. by destruct (k tt (f s)) as [[? ?] ?]. Qed.

Lemma bind_ok {A B} (m : M A) (k : A → M B) s a s1 o1 :
  m s = (Some a, s1, o1) →
  bind m k s = ((k a s1).1.1, (k a s1).1.2, o1 ++ (k a s1).2).
Proof. intros H. unfold bind. rewrite H. by destruct (k a s1) as [[? ?] ?]. Qed.

Lemma send_to_final s x m : final (send_to x m s) = s.
Proof. unfold send_to. by destruct (players s !! x). Qed.

(** Unfold the monad and the table primitives, and compute. *)
Ltac run_handler :=
  unfold bind, ret, get, modify, emit, throw, send_to, set_choice,
         broadcastRanking, broadcastOnlineCount; cbn.

(** ** Unrecognised choices *)

(** C8, counterexample: "alice" (socket 1), matched with "bob", submits the
    unrecognised symbol "lezard"; nothing at all is sent to her socket, so
    she receives no error notification. *)
Lemma invalid_choice_not_notified :
  let s := State {["alice" := Player 1 None; "bob" := Player 2 None]} ∅ [] ∅
                 {["alice" := "bob"; "bob" := "alice"]} ∅ ∅ in
  ¬ sent_to 1 (trace (play_online "alice" "lezard" s)).
Proof.
  intros s [m Hm]. vm_compute in Hm.
  apply list_elem_of_singleton in Hm. discriminate.
Qed.

(** C8, amended. A submission whose symbol is not one of the three
    recognised ones changes no table, resolves nothing, updates no score and
    sends no message to anybody: the handler only writes a diagnostic to the
    server console and returns. This holds for online rounds on both servers
    and for rounds against the automated opponent. *)
Theorem invalid_choice_dropped (s : state) (cur c : string) (rnd : nat) :
  valid_choice c = false →
  play_online cur c s = (Some tt, s, [ConsoleError msg_invalid_choice c])
  ∧ Legacy.play_online cur c s = (Some tt, s, [ConsoleError msg_invalid_choice c])
  ∧ play_ai cur c rnd s = (Some tt, s, [ConsoleError msg_invalid_choice c]).
Proof.
  intros Hc. unfold play_online, Legacy.play_online, play_ai.
  rewrite Hc. by cbn.
Qed.

Lemma invalid_choice_dropped_witness :
  let s := State {["alice" := Player 1 None]} ∅ [] ∅ ∅ ∅ ∅ in
  play_online "alice" "lezard" s = (Some tt, s, [ConsoleError msg_invalid_choice "lezard"]).
Proof.
  intros s. apply (invalid_choice_dropped s "alice" "lezard" 0). reflexivity.
Defined.

(** ** Online rounds *)

Lemma announce_result_run s cur c opp oc p o :
  players s !! cur = Some p → players s !! opp = Some o →
  ∃ m1 m2, is_game_result m1 ∧ is_game_result m2 ∧
    announce_result cur c opp oc s =
      (Some tt, s, score_updates cur c opp oc ++ [Send (ws p) m1; Send (ws o) m2]).
Proof.
  intros Hp Ho. unfold announce_result, score_updates.
  destruct (getResult c oc); run_handler; rewrite Hp, Ho; cbn;
    eexists _, _; split_and!; try reflexivity; done.
Qed.

Lemma legacy_announce_result_run s cur c opp oc p o :
  players s !! cur = Some p → players s !! opp = Some o →
  ∃ m1 m2, is_game_result m1 ∧ is_game_result m2 ∧
    Legacy.announce_result cur c opp oc s =
      (Some tt, s, score_updates cur c opp oc ++ [Send (ws p) m1; Send (ws o) m2]).
Proof.
  intros Hp Ho. unfold Legacy.announce_result, score_updates.
  destruct (getResult c oc); run_handler; rewrite Hp, Ho; cbn;
    eexists _, _; split_and!; try reflexivity; done.
Qed.

Lemma has_player_set_other s x q y :
  x ≠ y → has_player (with_players (<[x := q]>) s) y = has_player s y.
Proof.
  intros Hne. unfold has_player, with_players. cbn.
  by rewrite lookup_insert_ne.
Qed.

(** The sender's choice is stored and the opponent has none pending. *)
Ltac store_and_wait Hc Hp Hm Ho Hoc :=
  rewrite Hc; cbn; run_handler;
  rewrite (has_player_lookup _ _ _ Hp), Hp; cbn;
  rewrite Hm, has_player_set_other, (has_player_lookup _ _ _ Ho) by done;
  rewrite lookup_insert_ne, Ho by done;
  destruct (truthy_str _); cbn; [|done];
  destruct (choice _) as [?|]; cbn in *; [|done];
  by rewrite Hoc.

(** The sender's choice is stored and meets the opponent's pending one. *)
Ltac store_and_resolve Hc Hp Hm Hopp Ho Hoc Htr Hrun :=
  rewrite Hc; cbn; run_handler;
  rewrite (has_player_lookup _ _ _ Hp), Hp; cbn;
  rewrite Hm, Hopp, has_player_set_other, (has_player_lookup _ _ _ Ho) by done;
  rewrite lookup_insert_ne, Ho by done; cbn; rewrite Hoc, Htr;
  rewrite Hrun; cbn; rewrite lookup_insert_eq; cbn;
  rewrite lookup_insert_ne, lookup_insert_ne, Ho by done; cbn;
  unfold with_players; cbn;
  rewrite insert_insert_eq, <- app_assoc; reflexivity.

Section OnlineRound.

Variables (s : state) (cur opp c : string) (p o : player).
Hypothesis Hc : valid_choice c = true.
Hypothesis Hp : players s !! cur = Some p.
Hypothesis Hm : matches s !! cur = Some opp.
Hypothesis Hne : opp ≠ cur.
Hypothesis Ho : players s !! opp = Some o.

Let stored : state := with_players (<[cur := Player (ws p) (Some c)]>) s.
Let cleared : state :=
  with_players (λ P, <[opp := Player (ws o) None]> (<[cur := Player (ws p) None]> P)) s.

Lemma play_online_waits :
  truthy_opt (choice o) = false →
  play_online cur c s = (Some tt, stored, []).
Proof. intros Hoc. unfold play_online, stored. store_and_wait Hc Hp Hm Ho Hoc. Qed.

Lemma legacy_play_online_waits :
  truthy_opt (choice o) = false →
  Legacy.play_online cur c s = (Some tt, stored, []).
Proof. intros Hoc. unfold Legacy.play_online, stored. store_and_wait Hc Hp Hm Ho Hoc. Qed.

Lemma play_online_resolves oc :
  truthy_str opp = true → choice o = Some oc → truthy_str oc = true →
  ∃ m1 m2, is_game_result m1 ∧ is_game_result m2 ∧
    play_online cur c s =
      (Some tt, cleared,
       score_updates cur c opp oc ++ [Send (ws p) m1; Send (ws o) m2; BroadcastRanking]).
Proof.
  intros Hopp Hoc Htr.
  assert (Hp1 : players stored !! cur = Some (Player (ws p) (Some c)))
    by (cbn; apply lookup_insert_eq).
  assert (Ho1 : players stored !! opp = Some o)
    by (cbn; by rewrite lookup_insert_ne).
  destruct (announce_result_run stored cur c opp oc _ _ Hp1 Ho1) as (m1 & m2 & H1 & H2 & Hrun).
  exists m1, m2. split_and!; [done..|].
  unfold play_online, cleared. unfold stored in Hrun.
  store_and_resolve Hc Hp Hm Hopp Ho Hoc Htr Hrun.
Qed.

Lemma legacy_play_online_resolves oc :
  truthy_str opp = true → choice o = Some oc → truthy_str oc = true →
  ∃ m1 m2, is_game_result m1 ∧ is_game_result m2 ∧
    Legacy.play_online cur c s =
      (Some tt, cleared,
       score_updates cur c opp oc ++ [Send (ws p) m1; Send (ws o) m2; BroadcastRanking]).
Proof.
  intros Hopp Hoc Htr.
  assert (Hp1 : players stored !! cur = Some (Player (ws p) (Some c)))
    by (cbn; apply lookup_insert_eq).
  assert (Ho1 : players stored !! opp = Some o)
    by (cbn; by rewrite lookup_insert_ne).
  destruct (legacy_announce_result_run stored cur c opp oc _ _ Hp1 Ho1)
    as (m1 & m2 & H1 & H2 & Hrun).
  exists m1, m2. split_and!; [done..|].
  unfold Legacy.play_online, cleared. unfold stored in Hrun.
  store_and_resolve Hc Hp Hm Hopp Ho Hoc Htr Hrun.
Qed.

End OnlineRound.




(** ** Ready votes *)

(** C10. A vote stored by [ready_for_next_round] for a sender whose opponent
    is live (a registered name, neither empty nor "IA"), when the two stored
    votes then disagree (they are different values, and not both truthy, as
    the mismatch branch requires): the only table written is
    [playerReadyState], at the sender's key; [matches], [players] (hence
    both pending choices) and the opponent's vote are untouched. The trace
    is empty when the sender's vote is falsy, and otherwise holds nothing
    but one [opponent_left] addressed to the sender's own socket (none at
    all if the sender is not registered, where the handler stops on a
    [TypeError]). *)
Theorem ready_votes_disagree (s : state) (cur opp : string) (data_ready : jsval) :
  matches s !! cur = Some opp →
  live_opponent s (Some opp) = true →
  let voted := with_ready (<[cur := data_ready]>) s in
  ready_of voted cur ≠ ready_of voted opp →
  truthy (ready_of voted cur) && truthy (ready_of voted opp) = false →
  let r := ready_for_next_round cur data_ready s in
  final r = voted
  ∧ matches (final r) = matches s
  ∧ players (final r) = players s
  ∧ ready_of (final r) cur = data_ready
  ∧ ready_of (final r) opp = ready_of s opp
  ∧ (truthy data_ready = false → completed r = true ∧ trace r = [])
  ∧ (truthy data_ready = true →
       trace r = match players s !! cur with
                 | Some p => [Send (ws p) (opponent_left msg_opponent_left)]
                 | None => []
                 end).
Proof.
  intros Hm Hlive voted Hdis Hnot r.
  assert (Hcur : ready_of voted cur = data_ready).
  { unfold ready_of, voted. cbn. by rewrite lookup_insert_eq. }
  assert (Hne : opp ≠ cur).
  { intros ->. by apply Hdis. }
  assert (Hopp : ready_of voted opp = ready_of s opp).
  { unfold ready_of, voted. cbn. by rewrite lookup_insert_ne. }
  assert (Hrun : r = (if truthy data_ready
                      then send_to cur (opponent_left msg_opponent_left) voted
                      else (Some tt, voted, []))).
  { subst r. unfold ready_for_next_round. run_handler. fold voted.
    change (matches voted) with (matches s). rewrite Hm.
    change (live_opponent voted (Some opp)) with (live_opponent s (Some opp)).
    rewrite Hlive, Hnot. unfold strict_eq.
    rewrite bool_decide_eq_false_2 by done. cbn. rewrite Hcur.
    destruct (truthy data_ready); [|done].
    change (players voted) with (players s).
    by destruct (players s !! cur). }
  assert (Hfinal : final r = voted).
  { rewrite Hrun. destruct (truthy data_ready); [|done].
    unfold send_to. by destruct (players voted !! cur). }
  rewrite Hfinal. split_and!; try done.
  - intros Hr. rewrite Hrun, Hr. done.
  - intros Hr. rewrite Hrun, Hr. unfold send_to, trace.
    change (players voted) with (players s).
    by destruct (players s !! cur).
Qed.

Lemma ready_votes_disagree_witness :
  let s := State {["alice" := Player 1 None; "bob" := Player 2 None]} ∅ [] ∅
                 {["alice" := "bob"; "bob" := "alice"]}
                 {["alice" := JBool false; "bob" := JBool false]} ∅ in
  trace (ready_for_next_round "alice" (JBool true) s)
    = [Send 1 (opponent_left msg_opponent_left)].
Proof.
  intros s.
  destruct (ready_votes_disagree s "alice" "bob" (JBool true))
    as (_ & _ & _ & _ & _ & _ & H);
    [reflexivity | reflexivity | by vm_compute | reflexivity |].
  by rewrite H.
Defined.

(** ** Name conflicts at login *)

(** The guest branch refuses a registered name and leaves every table as it
    was (both servers share this code). *)
Lemma login_guest_name_taken (s : state) (w : conn) (username : string) :
  has_player s username = true →
  login_guest w username s = (Some tt, s, [Send w (login_error msg_name_taken)]).
Proof. intros H. unfold login_guest. run_handler. by rewrite H. Qed.


(** The authenticated branches never look the name up. *)
Lemma install_authenticated_players (s : state) (w : conn) (u uid t : string) :
  players (final (install_authenticated w u uid t s)) = <[u := Player w None]> (players s).
Proof. done. Qed.

(** C2, the code at the failing input. "alice" joins as a guest on socket 1
    and submits "pierre"; then socket 2 logs in with a token, or with a
    password, that the account manager resolves to the user "alice". The
    second login is accepted: no [login_error] is sent, and the record of
    "alice" in [players] is replaced by one bound to socket 2 with no pending
    choice. *)
Theorem authenticated_login_replaces_registered :
  ∃ W1, run [(1, guest_login "alice"); (1, In_play_online "pierre")] boot = Some W1
    ∧ players (tables W1) !! "alice" = Some (Player 1 (Some "pierre"))
    ∧ logged_in_over_alice W1 (In_login (Some "tok") "" None (AuthOk "alice" "u1" "tok"))
    ∧ logged_in_over_alice W1 (In_login None "alice" (Some "pw") (AuthOk "alice" "u1" "tok")).
Proof.
  eexists. split; [vm_compute; reflexivity|].
  split_and!; by vm_compute.
Qed.

(** ** Teardown *)

Local Arguments live_opponent : simpl never.

Lemma removePlayerFromMatch_run s p :
  removePlayerFromMatch p s = (Some tt, with_matches (unpaired p) s, []).
Proof.
  unfold removePlayerFromMatch, unpaired. run_handler.
  destruct s as [P Md Q G m R A]. unfold with_matches. cbn.
  destruct (m !! p) as [o|]; [|done].
  destruct (truthy_str o); [|done]. cbn.
  by destruct (bool_decide (o = "IA")).
Qed.

Lemma notify_opponent_left_run s cur :
  notify_opponent_left cur s = (Some tt, s, opponent_notice s cur).
Proof.
  unfold notify_opponent_left, opponent_notice. run_handler.
  destruct (matches s !! cur) as [o|]; [|done].
  destruct (live_opponent s (Some o)) eqn:Hl; [|done].
  unfold live_opponent in Hl. apply andb_prop in Hl as [_ Hl].
  apply has_player_true in Hl as [r Hr]. by rewrite Hr.
Qed.

Lemma leave_game_run s cur :
  leave_game cur s = (Some tt, torn_down cur s, opponent_notice s cur).
Proof.
  unfold leave_game.
  rewrite (bind_ok _ _ _ _ _ _ (notify_opponent_left_run _ _)).
  rewrite (bind_ok _ _ _ _ _ _ (removePlayerFromMatch_run _ _)).
  unfold remove_from_queue, remove_hosted. rewrite bind_modify.
  cbn. by rewrite app_nil_r.
Qed.

Lemma close_run s cur :
  truthy_str cur = true →
  close cur s =
    (Some tt, torn_down cur (unregistered cur s),
     opponent_notice s cur ++ [BroadcastOnlineCount (size (delete cur (players s)))]).
Proof.
  intros Hcur. unfold close. rewrite Hcur.
  rewrite (bind_ok _ _ _ _ _ _ (notify_opponent_left_run _ _)).
  rewrite !bind_modify.
  rewrite (bind_ok _ _ _ _ _ _ (removePlayerFromMatch_run _ _)).
  unfold remove_from_queue, remove_hosted. rewrite !bind_modify.
  reflexivity.
Qed.

Lemma unpaired_lookup p m : truthy_opt (unpaired p m !! p) = false.
Proof.
  unfold unpaired. destruct (m !! p) as [o|] eqn:Hp; [|by rewrite Hp].
  destruct (truthy_str o) eqn:Ho; [|by rewrite Hp].
  case_bool_decide.
  - by rewrite lookup_delete_eq.
  - destruct (decide (o = p)) as [->|].
    + by rewrite lookup_delete_eq.
    + by rewrite lookup_delete_ne, lookup_delete_eq.
Qed.

Lemma unpaired_absent p m : truthy_opt (m !! p) = false → unpaired p m = m.
Proof.
  unfold unpaired. destruct (m !! p) as [o|]; [|done]. cbn. by intros ->.
Qed.

Lemma opponent_notice_absent s cur :
  truthy_opt (matches s !! cur) = false → opponent_notice s cur = [].
Proof.
  unfold opponent_notice, live_opponent.
  destruct (matches s !! cur) as [o|]; [|done]. cbn. by intros ->.
Qed.

Lemma remove_first_absent x q : x ∉ q → remove_first x q = q.
Proof.
  induction q as [|y q IH]; [done|]. intros Hx. cbn.
  apply not_elem_of_cons in Hx as [Hxy Hx].
  rewrite bool_decide_eq_false_2 by done. by rewrite IH.
Qed.

Lemma remove_first_sublist x q : remove_first x q `sublist_of` q.
Proof.
  induction q as [|y q IH]; [done|]. cbn.
  case_bool_decide.
  - by apply sublist_cons.
  - by apply sublist_skip.
Qed.

Lemma remove_first_NoDup x q : NoDup q → NoDup (remove_first x q).
Proof. intros H. eapply sublist_NoDup; [done | apply remove_first_sublist]. Qed.

Lemma remove_first_gone x q : NoDup q → x ∉ remove_first x q.
Proof.
  induction q as [|y q IH]; cbn.
  - intros _. apply not_elem_of_nil.
  - intros [Hy Hq]%NoDup_cons. case_bool_decide as Hyx.
    + by subst.
    + apply not_elem_of_cons. split; [done | by apply IH].
Qed.

Lemma remove_hosted_idem cur (G : gmap string game) :
  filter (λ kv : string * game, host kv.2 ≠ cur)
         (filter (λ kv : string * game, host kv.2 ≠ cur) G)
  = filter (λ kv : string * game, host kv.2 ≠ cur) G.
Proof. by apply map_filter_filter_l. Qed.

Lemma torn_down_idem cur s :
  NoDup (quickMatchQueue s) → torn_down cur (torn_down cur s) = torn_down cur s.
Proof.
  intros Hq. unfold torn_down. cbn. f_equal.
  - apply remove_first_absent. by apply remove_first_gone.
  - apply remove_hosted_idem.
  - apply unpaired_absent, unpaired_lookup.
Qed.

Lemma torn_down_nothing cur s :
  truthy_opt (matches s !! cur) = false →
  cur ∉ quickMatchQueue s →
  (∀ k g, privateGames s !! k = Some g → host g ≠ cur) →
  torn_down cur s = s.
Proof.
  intros Hm Hq Hg. destruct s as [P Md Q G m R A]. unfold torn_down. cbn in *. f_equal.
  - by apply remove_first_absent.
  - apply map_filter_id. intros k g Hk. cbn. by eapply Hg.
  - by apply unpaired_absent.
Qed.

Lemma closed_idem cur s :
  NoDup (quickMatchQueue s) →
  torn_down cur (unregistered cur (torn_down cur (unregistered cur s)))
  = torn_down cur (unregistered cur s).
Proof.
  intros Hq. unfold torn_down, unregistered. cbn. f_equal.
  - apply delete_delete_eq.
  - apply delete_delete_eq.
  - apply remove_first_absent. by apply remove_first_gone.
  - apply remove_hosted_idem.
  - apply unpaired_absent, unpaired_lookup.
  - apply delete_delete_eq.
  - apply delete_delete_eq.
Qed.

(** C9. Teardown is idempotent. With a duplicate-free queue (an invariant of
    the server, [queue_NoDup_run] below):
    - a second [leave_game] right after a first one completes, changes
      nothing and sends nothing;
    - a second run of the [close] block right after a first one completes,
      changes nothing and sends no [opponent_left] (only the online count);
    - for a participant with no opponent, no queue entry and no hosted
      lobby, [leave_game] is a complete no-op, and [close] leaves [matches],
      the queue and the lobbies as they were and sends no [opponent_left]. *)
Theorem teardown_idempotent (s : state) (cur : string) :
  NoDup (quickMatchQueue s) →
  (let once := final (leave_game cur s) in
   completed (leave_game cur s) = true
   ∧ leave_game cur once = (Some tt, once, []))
  ∧ (let once := final (close cur s) in
     completed (close cur s) = true
     ∧ completed (close cur once) = true
     ∧ final (close cur once) = once
     ∧ existsb is_opponent_left (trace (close cur once)) = false)
  ∧ (matches s !! cur = None →
     cur ∉ quickMatchQueue s →
     (∀ k g, privateGames s !! k = Some g → host g ≠ cur) →
     leave_game cur s = (Some tt, s, [])
     ∧ completed (close cur s) = true
     ∧ matches (final (close cur s)) = matches s
     ∧ quickMatchQueue (final (close cur s)) = quickMatchQueue s
     ∧ privateGames (final (close cur s)) = privateGames s
     ∧ existsb is_opponent_left (trace (close cur s)) = false).
Proof.
  intros Hq. split; [|split].
  - cbn zeta. rewrite !leave_game_run. cbn [final fst snd]. split; [done|].
    rewrite torn_down_idem by done. f_equal.
    apply opponent_notice_absent. cbn. apply unpaired_lookup.
  - cbn zeta. destruct (truthy_str cur) eqn:Hcur.
    + rewrite !close_run by done. cbn [final trace fst snd].
      rewrite closed_idem by done. split_and!; try done.
      rewrite opponent_notice_absent; [done|]. cbn. apply unpaired_lookup.
    + unfold close. by rewrite Hcur.
  - intros Hm Hnq Hg.
    assert (Hm' : truthy_opt (matches s !! cur) = false) by (by rewrite Hm).
    split.
    { by rewrite leave_game_run, torn_down_nothing, opponent_notice_absent. }
    destruct (truthy_str cur) eqn:Hcur.
    + rewrite !close_run by done. cbn [final trace fst snd].
      rewrite opponent_notice_absent by done.
      change (torn_down cur (unregistered cur s))
        with (unregistered cur (torn_down cur s)).
      by rewrite torn_down_nothing.
    + unfold close. by rewrite Hcur.
Qed.

Lemma teardown_idempotent_witness :
  let s := State {["alice" := Player 1 None; "bob" := Player 2 None]} ∅ ["alice"]
                 {["g1" := Game "alice" None]}
                 {["alice" := "bob"; "bob" := "alice"]} ∅ ∅ in
  leave_game "alice" (final (leave_game "alice" s))
    = (Some tt, final (leave_game "alice" s), []).
Proof.
  intros s. apply (teardown_idempotent s "alice").
  apply (bool_decide_unpack _). by vm_compute.
Defined.

(** ** Invariants of the tables *)

Lemma hoare_bind {A B} (Pre Post : state → Prop) (m : M A) (k : A → M B) :
  hoare Pre m Post → (∀ a, hoare Post (k a) Post) → hoare Pre (bind m k) Post.
Proof.
  intros Hm Hk s Hs. specialize (Hm s Hs). unfold bind, final in *.
  destruct (m s) as [[[a|] s1] o1]; cbn in *; [|done].
  specialize (Hk a s1 Hm). by destruct (k a s1) as [[r s2] o2].
Qed.

Section Preserved.

Context (P : state → Prop).

Lemma preserved_ret {A} (a : A) : preserved P (ret a).
Proof. by intros s. Qed.

Lemma preserved_throw {A} : preserved P (@throw A).
Proof. by intros s. Qed.

Lemma preserved_get : preserved P get.
Proof. by intros s. Qed.

Lemma preserved_emit e : preserved P (emit e).
Proof. by intros s. Qed.

Lemma preserved_send_to x m : preserved P (send_to x m).
Proof. intros s Hs. unfold send_to. by destruct (players s !! x). Qed.

Lemma preserved_modify f : (∀ s, P s → P (f s)) → preserved P (modify f).
Proof. intros Hf s Hs. by apply Hf. Qed.

Lemma preserved_bind {A B} (m : M A) (k : A → M B) :
  preserved P m → (∀ a, preserved P (k a)) → preserved P (bind m k).
Proof. apply hoare_bind. Qed.

Lemma preserved_get_bind {B} (k : state → M B) :
  (∀ s, P s → P (final (k s s))) → preserved P (bind get k).
Proof.
  intros Hk s Hs. specialize (Hk s Hs). unfold bind, get, final in *. cbn.
  by destruct (k s s) as [[r s2] o2].
Qed.

Lemma preserved_set_choice x c :
  (∀ f s, P s → P (with_players f s)) → preserved P (set_choice x c).
Proof.
  intros Hf s Hs. unfold set_choice. destruct (players s !! x); [|done].
  by apply Hf.
Qed.

End Preserved.

(** Decompose a handler into its primitive steps. *)
Ltac preserve_step :=
  first
    [ apply preserved_ret | apply preserved_throw | apply preserved_get
    | apply preserved_emit | apply preserved_send_to
    | apply preserved_bind; [|intros ?]
    | match goal with
      | |- preserved _ (if ?b then _ else _) => destruct b
      | |- preserved _ (match ?o with Some _ => _ | None => _ end) => destruct o
      | |- preserved _ (match ?r with res_draw => _ | res_player1 => _ | res_player2 => _ end) =>
          destruct r
      | |- preserved _ (match ?a with AuthOk _ _ _ => _ | AuthErr _ => _ end) => destruct a
      end ].

Ltac preserve_with tac :=
  repeat first [ preserve_step
               | apply preserved_modify; intros ? ?; tac
               | apply preserved_set_choice; intros ? ? ?; tac ].

(** *** The queue holds no name twice *)

(** Induction on a queue, two entries at a time, as the loop consumes it. *)
Lemma queue_pair_ind (Q : list string → Prop) :
  Q [] → (∀ x, Q [x]) → (∀ x y q, Q q → Q (x :: y :: q)) → ∀ q, Q q.
Proof.
  intros H0 H1 H2 q.
  assert (H : Q q ∧ ∀ x, Q (x :: q)); [|by destruct H].
  induction q as [|y q [IH1 IH2]]; [by split|].
  split; [apply IH2|]. intros x. by apply H2.
Qed.

(** The quick-match loop keeps whatever does not depend on the queue, on
    [matches] or on the ready votes. *)
Lemma drain_preserved (P : state → Prop) q :
  (∀ f s, P s → P (with_queue f s)) →
  (∀ f s, P s → P (with_matches f s)) →
  (∀ f s, P s → P (with_ready f s)) →
  preserved P (drain q).
Proof.
  intros Hq Hm Hr.
  induction q as [|x|p1 p2 rest IH] using queue_pair_ind; cbn [drain];
    [apply preserved_ret | apply preserved_ret |].
  apply preserved_bind; [apply preserved_modify, Hq|intros _].
  apply preserved_bind; [|intros _; apply IH].
  unfold match_pair. preserve_with ltac:(first [by apply Hm | by apply Hr]).
Qed.

Lemma match_pair_queue_NoDup p1 p2 : preserved queue_NoDup (match_pair p1 p2).
Proof. unfold match_pair. preserve_with done. Qed.

Lemma drain_queue_NoDup q : NoDup q → preserved queue_NoDup (drain q).
Proof.
  induction q as [|x|p1 p2 rest IH] using queue_pair_ind; intros Hq; cbn [drain];
    [apply preserved_ret | apply preserved_ret |].
  apply NoDup_cons in Hq as [_ [_ Hq]%NoDup_cons].
  apply preserved_bind; [by apply preserved_modify|intros _].
  apply preserved_bind; [apply match_pair_queue_NoDup|intros _; by apply IH].
Qed.

Lemma matchQuickPlayers_queue_NoDup : preserved queue_NoDup matchQuickPlayers.
Proof.
  unfold matchQuickPlayers. apply preserved_get_bind. intros s Hs.
  by apply drain_queue_NoDup.
Qed.

Lemma quick_match_queue_NoDup cur : preserved queue_NoDup (quick_match cur).
Proof.
  unfold quick_match. apply preserved_get_bind. intros s Hs.
  apply (hoare_bind (λ s', s' = s) queue_NoDup); [| |done].
  - intros ? ->. case_bool_decide as Hin; [done|].
    unfold queue_NoDup in *. cbn.
    apply NoDup_app. split_and!; [done | | apply NoDup_singleton].
    by intros x Hx ->%list_elem_of_singleton.
  - intros _. apply matchQuickPlayers_queue_NoDup.
Qed.

Ltac queue_untouched :=
  first [ done | by apply remove_first_NoDup ].

Lemma dispatch_queue_NoDup w c ev : preserved queue_NoDup (dispatch w c ev).
Proof.
  destruct ev; cbn [dispatch];
    try apply quick_match_queue_NoDup;
    unfold register, login, login_token, login_password, login_guest,
           install_authenticated, logout, select_mode, play_ai,
           create_private_game, join_private_game, play_online, announce_result,
           ready_for_next_round, leave_game, close, notify_opponent_left,
           removePlayerFromMatch, remove_from_queue, remove_hosted,
           broadcastOnlineCount, broadcastRanking;
    preserve_with queue_untouched.
Qed.

(** The tables after an event are those the dispatched handler leaves. *)
Lemma on_event_tables w ev W W' t :
  on_event w ev W = Some (W', t) →
  tables W' = tables W ∨ ∃ c, tables W' = final (dispatch w c ev (tables W)).
Proof.
  unfold on_event. intros Hev.
  destruct ev;
    try (injection Hev as <- _; right; by exists (Session "" None));
    (destruct (sessions W !! w) as [c|];
      [injection Hev as <- _; right; by exists c
      |try discriminate; injection Hev as <- _; by left]).
Qed.

(** A property kept by the handlers of the events in [ok] holds along every
    run made of such events. *)
Lemma run_invariant_on (ok : inbound → Prop) (P : state → Prop) :
  (∀ w c ev, ok ev → preserved P (dispatch w c ev)) →
  ∀ evs W W', Forall (λ wev, ok wev.2) evs →
    P (tables W) → run evs W = Some W' → P (tables W').
Proof.
  intros HP evs. induction evs as [|[w ev] evs IH]; intros W W' Hok HW; cbn.
  - by intros [= <-].
  - apply Forall_cons in Hok as [Hev Hok].
    destruct (on_event w ev W) as [[W1 t]|] eqn:Hon; [|done].
    apply IH; [done|]. destruct (on_event_tables _ _ _ _ _ Hon) as [-> | [c ->]]; [done|].
    by apply HP.
Qed.

Lemma queue_NoDup_run W : reachable W → queue_NoDup (tables W).
Proof.
  intros [evs Hrun].
  apply (run_invariant_on (λ _, True) queue_NoDup) with evs boot; [| |apply NoDup_nil_2|done].
  - intros w c ev _. apply dispatch_queue_NoDup.
  - by apply Forall_forall.
Qed.

(** In every reachable state, a second [leave_game] is a no-op. *)
Lemma leave_game_twice_reachable W cur :
  reachable W →
  leave_game cur (final (leave_game cur (tables W)))
    = (Some tt, final (leave_game cur (tables W)), []).
Proof.
  intros HW%queue_NoDup_run. rewrite !leave_game_run. cbn [final fst snd].
  rewrite torn_down_idem by done. f_equal.
  apply opponent_notice_absent. cbn. apply unpaired_lookup.
Qed.

(** ** Private lobbies *)

Lemma join_refused s cur gameId e :
  join_check s cur gameId = Some e →
  join_private_game cur gameId s = send_to cur (error (refusal_message e)) s
  ∧ Legacy.join_private_game cur gameId s = send_to cur (error (refusal_message e)) s.
Proof.
  unfold join_check, join_private_game, Legacy.join_private_game.
  rewrite !bind_get.
  destruct (privateGames s !! gameId) as [g|]; [|by intros [= <-]].
  case_bool_decide; [by intros [= <-]|].
  destruct (truthy_opt (guest g)); [by intros [= <-]|done].
Qed.

Lemma join_accepted_lobbies s cur gameId g :
  privateGames s !! gameId = Some g →
  join_check s cur gameId = None →
  privateGames (final (join_private_game cur gameId s))
    = <[gameId := Game (host g) (Some cur)]> (privateGames s)
  ∧ privateGames (final (Legacy.join_private_game cur gameId s))
    = <[gameId := Game (host g) (Some cur)]> (privateGames s).
Proof.
  unfold join_check, join_private_game, Legacy.join_private_game. intros Hg.
  rewrite !bind_get, Hg.
  case_bool_decide; [done|].
  destruct (truthy_opt (guest g)); [done|]. intros _.
  rewrite !bind_modify. unfold bind, send_to. cbn.
  destruct (players s !! host g); cbn; [|done].
  by destruct (players s !! cur).
Qed.

Section Settled.

Variables (t : string) (g0 : game).
Hypothesis Hguest : truthy_opt (guest g0) = true.







End Settled.





(** ** Quick-match draining *)

Lemma match_pair_run p1 p2 s :
  match_pair p1 p2 s =
    if both_registered (players s) (p1, p2)
    then (Some tt,
          with_ready (λ r, reset_votes r (p1, p2))
            (with_matches (λ m, install_pair m (p1, p2)) s),
          announce_pair (players s) (p1, p2))
    else (Some tt, s, []).
Proof.
  unfold match_pair, both_registered, announce_pair, has_player.
  rewrite bind_get. cbn [fst snd].
  destruct (bool_decide (is_Some (players s !! p1))) eqn:H1; [|done].
  destruct (bool_decide (is_Some (players s !! p2))) eqn:H2; [|done].
  apply bool_decide_eq_true in H1 as [a Ha]. apply bool_decide_eq_true in H2 as [b Hb].
  cbn [andb]. rewrite !bind_modify. unfold bind, send_to.
  cbn. rewrite Ha. cbn. by rewrite Hb.
Qed.

Lemma legacy_match_pair_run p1 p2 s :
  Legacy.match_pair p1 p2 s =
    if both_registered (players s) (p1, p2)
    then (Some tt, with_matches (λ m, install_pair m (p1, p2)) s,
          announce_pair (players s) (p1, p2))
    else (Some tt, s, []).
Proof.
  unfold Legacy.match_pair, both_registered, announce_pair, has_player.
  rewrite bind_get. cbn [fst snd].
  destruct (bool_decide (is_Some (players s !! p1))) eqn:H1; [|done].
  destruct (bool_decide (is_Some (players s !! p2))) eqn:H2; [|done].
  apply bool_decide_eq_true in H1 as [a Ha]. apply bool_decide_eq_true in H2 as [b Hb].
  cbn [andb]. rewrite !bind_modify. unfold bind, send_to.
  cbn. rewrite Ha. cbn. by rewrite Hb.
Qed.

Lemma match_pair_drain {B} p1 p2 (k : unit → M B) s :
  bind (match_pair p1 p2) k s =
    if both_registered (players s) (p1, p2)
    then
      let s' := with_ready (λ r, reset_votes r (p1, p2))
                  (with_matches (λ m, install_pair m (p1, p2)) s) in
      ((k tt s').1.1, (k tt s').1.2, announce_pair (players s) (p1, p2) ++ (k tt s').2)
    else k tt s.
Proof.
  unfold bind at 1. rewrite match_pair_run.
  destruct (both_registered (players s) (p1, p2)); cbn zeta.
  - by destruct (k tt _) as [[? ?] ?].
  - by destruct (k tt s) as [[? ?] ?].
Qed.

Lemma drain_run q :
  ∀ s, quickMatchQueue s = q →
    drain q s = (Some tt, drained s q, flat_map (announce_pair (players s)) (formed (players s) q)).
Proof.
  induction q as [|x|p1 p2 rest IH] using queue_pair_ind; intros s Hq.
  - destruct s; cbn in *; by subst.
  - destruct s; cbn in *; by subst.
  - cbn [drain]. rewrite bind_modify.
    set (s1 := with_queue (λ _, rest) s).
    rewrite match_pair_drain.
    change (players s1) with (players s).
    unfold drained, formed. cbn [couples List.filter].
    destruct (both_registered (players s) (p1, p2)); cbn zeta; by rewrite IH.
Qed.

Lemma legacy_match_pair_drain {B} p1 p2 (k : unit → M B) s :
  bind (Legacy.match_pair p1 p2) k s =
    if both_registered (players s) (p1, p2)
    then
      let s' := with_matches (λ m, install_pair m (p1, p2)) s in
      ((k tt s').1.1, (k tt s').1.2, announce_pair (players s) (p1, p2) ++ (k tt s').2)
    else k tt s.
Proof.
  unfold bind at 1. rewrite legacy_match_pair_run.
  destruct (both_registered (players s) (p1, p2)); cbn zeta.
  - by destruct (k tt _) as [[? ?] ?].
  - by destruct (k tt s) as [[? ?] ?].
Qed.

Lemma legacy_drain_run q :
  ∀ s, quickMatchQueue s = q →
    Legacy.drain q s =
      (Some tt, legacy_drained s q,
       flat_map (announce_pair (players s)) (formed (players s) q)).
Proof.
  induction q as [|x|p1 p2 rest IH] using queue_pair_ind; intros s Hq.
  - destruct s; cbn in *; by subst.
  - destruct s; cbn in *; by subst.
  - cbn [Legacy.drain]. rewrite bind_modify.
    set (s1 := with_queue (λ _, rest) s).
    rewrite legacy_match_pair_drain.
    change (players s1) with (players s).
    unfold legacy_drained, formed. cbn [couples List.filter].
    destruct (both_registered (players s) (p1, p2)); cbn zeta; by rewrite IH.
Qed.

Lemma matchQuickPlayers_run s :
  matchQuickPlayers s =
    (Some tt, drained s (quickMatchQueue s),
     flat_map (announce_pair (players s)) (formed (players s) (quickMatchQueue s))).
Proof. unfold matchQuickPlayers. rewrite bind_get. by apply drain_run. Qed.

Lemma legacy_matchQuickPlayers_run s :
  Legacy.matchQuickPlayers s =
    (Some tt, legacy_drained s (quickMatchQueue s),
     flat_map (announce_pair (players s)) (formed (players s) (quickMatchQueue s))).
Proof. unfold Legacy.matchQuickPlayers. rewrite bind_get. by apply legacy_drain_run. Qed.

Lemma leftover_drop q : leftover q = drop (length q - length q mod 2) q.
Proof.
  induction q as [|x|x y q IH] using queue_pair_ind; [done..|].
  cbn [leftover length]. rewrite IH.
  replace (S (S (length q)) mod 2) with (length q mod 2).
  - assert (length q mod 2 ≤ length q)%nat by (apply Nat.Div0.mod_le).
    by replace (S (S (length q)) - length q mod 2) with (S (S (length q - length q mod 2))) by lia.
  - change (S (S (length q))) with (2 + length q).
    rewrite <- (Nat.Div0.add_mod_idemp_l 2). done.
Qed.

Lemma couples_lookup q i a b :
  couples q !! i = Some (a, b) ↔ q !! (2 * i)%nat = Some a ∧ q !! (2 * i + 1)%nat = Some b.
Proof.
  revert i. induction q as [|x|x y q IH] using queue_pair_ind; intros i.
  - cbn [couples]. rewrite !lookup_nil. split; [done | by intros [? _]].
  - cbn [couples]. rewrite lookup_nil, Nat.add_1_r. cbn [lookup list_lookup].
    split; [done|]. intros [_ H]. by destruct (2 * i)%nat.
  - cbn [couples]. destruct i as [|i].
    + cbn. split; [by intros [= -> ->] | by intros [[= ->] [= ->]]].
    + replace (2 * S i)%nat with (S (S (2 * i))) by lia.
      replace (S (S (2 * i)) + 1)%nat with (S (S (2 * i + 1))) by lia.
      cbn [lookup list_lookup]. apply IH.
Qed.

(** C5, counterexample. Socket 1 registers "x"; socket 2 asks for the same
    name, is refused, and keeps [currentPlayer = "x"]; socket 1 closes, so
    "x" is unregistered; socket 2 queues for a quick match, and the queue is
    ["x"]. Then "c" registers on socket 3 and queues: the loop shifts "x"
    and "c" out, finds "x" unregistered, and drops both. "c" is still
    registered, is no longer queued, has no opponent and was told nothing. *)
Lemma drain_discards_registered_partner :
  ∃ W, run [(1, guest_login "x"); (2, guest_login "x"); (1, In_close);
            (2, In_quick_match); (3, guest_login "c")] boot = Some W
    ∧ quickMatchQueue (tables W) = ["x"]
    ∧ has_player (tables W) "x" = false
    ∧ has_player (tables W) "c" = true
    ∧ match on_event 3 In_quick_match W with
      | Some (W', t) =>
          has_player (tables W') "c" = true
          ∧ quickMatchQueue (tables W') = []
          ∧ matches (tables W') !! "c" = None
          ∧ t = []
      | None => False
      end.
Proof.
  eexists. split; [vm_compute; reflexivity|].
  split_and!; by vm_compute.
Qed.

(** C5, amended. Draining is strict FIFO on couples: it shifts the two
    oldest entries out of the queue while at least two remain, so that the
    couples are entries 0-1, 2-3, ... and at most the last entry of an
    odd-length queue stays. A couple becomes a match, announced to both with
    [game_joined], exactly when both of its names are registered; matches
    are formed in queue order. Otherwise both entries of the couple are
    dropped silently, the registered one included. No unregistered name is
    ever paired. The registry is not changed. Both servers behave so (the
    server with accounts also resets the two ready votes). *)
Theorem matchQuickPlayers_drains (s : state) :
  let q := quickMatchQueue s in
  let made := List.filter (both_registered (players s)) (couples q) in
  matchQuickPlayers s
    = (Some tt,
       State (players s) (playerModes s) (drop (length q - length q mod 2) q)
             (privateGames s)
             (foldl install_pair (matches s) made)
             (foldl reset_votes (playerReadyState s) made)
             (authenticatedUsers s),
       flat_map (announce_pair (players s)) made)
  ∧ Legacy.matchQuickPlayers s
    = (Some tt,
       State (players s) (playerModes s) (drop (length q - length q mod 2) q)
             (privateGames s)
             (foldl install_pair (matches s) made)
             (playerReadyState s)
             (authenticatedUsers s),
       flat_map (announce_pair (players s)) made)
  ∧ (∀ i a b, couples q !! i = Some (a, b)
              ↔ q !! (2 * i)%nat = Some a ∧ q !! (2 * i + 1)%nat = Some b)
  ∧ (∀ c, c ∈ made ↔ c ∈ couples q ∧ has_player s c.1 = true ∧ has_player s c.2 = true).
Proof.
  intros q made. split_and!.
  - rewrite matchQuickPlayers_run. unfold drained. by rewrite leftover_drop.
  - rewrite legacy_matchQuickPlayers_run. unfold legacy_drained. by rewrite leftover_drop.
  - intros i a b. apply couples_lookup.
  - intros c. unfold made. rewrite !list_elem_of_In, filter_In.
    unfold both_registered, has_player. by rewrite andb_true_iff.
Qed.

(** ** Pairing and the symmetry of [matches] *)

Lemma join_accepted_run s cur t g ph pc :
  privateGames s !! t = Some g → host g ≠ cur → truthy_opt (guest g) = false →
  players s !! host g = Some ph → players s !! cur = Some pc →
  join_private_game cur t s =
    (Some tt,
     State (players s) (playerModes s) (quickMatchQueue s)
           (<[t := Game (host g) (Some cur)]> (privateGames s))
           (install_pair (matches s) (host g, cur))
           (reset_votes (playerReadyState s) (host g, cur))
           (authenticatedUsers s),
     [Send (ws ph) (game_joined cur); Send (ws pc) (game_joined (host g))])
  ∧ Legacy.join_private_game cur t s =
    (Some tt,
     State (players s) (playerModes s) (quickMatchQueue s)
           (<[t := Game (host g) (Some cur)]> (privateGames s))
           (install_pair (matches s) (host g, cur))
           (playerReadyState s)
           (authenticatedUsers s),
     [Send (ws ph) (game_joined cur); Send (ws pc) (game_joined (host g))]).
Proof.
  intros Hg Hh Hgu Hph Hpc. unfold join_private_game, Legacy.join_private_game.
  rewrite !bind_get, Hg, bool_decide_eq_false_2, Hgu by done.
  rewrite !bind_modify. unfold bind, send_to.
  cbn. rewrite Hph. cbn. by rewrite Hpc.
Qed.

Lemma install_pair_lookup m a b :
  install_pair m (a, b) !! a = Some b ∧ install_pair m (a, b) !! b = Some a.
Proof.
  unfold install_pair. cbn. split; [|apply lookup_insert_eq].
  destruct (decide (b = a)) as [->|]; [apply lookup_insert_eq|].
  by rewrite lookup_insert_ne, lookup_insert_eq.
Qed.

Lemma install_pair_other m a b x :
  x ≠ a → x ≠ b → install_pair m (a, b) !! x = m !! x.
Proof. intros Ha Hb. unfold install_pair. cbn. by rewrite !lookup_insert_ne. Qed.

(** C1, counterexample. "alice" and "bob" are matched by the queue. "alice"
    queues again and "carol" queues after her: the loop pairs "alice" with
    "carol" and announces it to both; nothing is refused, the entry of
    "alice" now names "carol", and "bob" still names "alice". The same
    happens when "carol" joins a lobby that "alice" hosts. *)
Lemma matched_player_is_paired_again :
  ∃ W, run [(1, guest_login "alice"); (2, guest_login "bob");
            (1, In_quick_match); (2, In_quick_match); (3, guest_login "carol")] boot = Some W
    ∧ matches (tables W) !! "alice" = Some "bob"
    ∧ matches (tables W) !! "bob" = Some "alice"
    ∧ match run [(1, In_quick_match)] W with
      | Some W1 =>
          match on_event 3 In_quick_match W1 with
          | Some (W2, t) =>
              t = [Send 1 (game_joined "carol"); Send 3 (game_joined "alice")]
              ∧ matches (tables W2) !! "alice" = Some "carol"
              ∧ matches (tables W2) !! "bob" = Some "alice"
          | None => False
          end
      | None => False
      end
    ∧ match run [(1, In_create_private_game "t")] W with
      | Some W1 =>
          match on_event 3 (In_join_private_game "t") W1 with
          | Some (W2, t) =>
              t = [Send 1 (game_joined "carol"); Send 3 (game_joined "alice")]
              ∧ matches (tables W2) !! "alice" = Some "carol"
              ∧ matches (tables W2) !! "bob" = Some "alice"
          | None => False
          end
      | None => False
      end.
Proof.
  eexists. split; [vm_compute; reflexivity|].
  split_and!; by vm_compute.
Qed.

(** C1, amended. Pairing never fails and never looks at [matches]: there is
    no already-matched refusal. When [a], matched with [b], is paired with a
    third registered participant [c] (by the queue loop drawing the couple
    [a], [c], or by [c] joining a lobby that [a] hosts), both are told
    [game_joined], the entry of [a] is overwritten with [c], [c] gets the
    entry [a], and the entry of [b] is left naming [a]. *)
Theorem pairing_overwrites (s : state) (a b c : string) (pa pc : player) :
  matches s !! a = Some b →
  matches s !! b = Some a →
  c ≠ a → c ≠ b → a ≠ b →
  players s !! a = Some pa →
  players s !! c = Some pc →
  let told := [Send (ws pa) (game_joined c); Send (ws pc) (game_joined a)] in
  let rewritten (r : option unit * state * list effect) :=
    completed r = true ∧ trace r = told
    ∧ matches (final r) !! a = Some c
    ∧ matches (final r) !! c = Some a
    ∧ matches (final r) !! b = Some a in
  (quickMatchQueue s = [a; c] →
     rewritten (matchQuickPlayers s) ∧ rewritten (Legacy.matchQuickPlayers s))
  ∧ (∀ t g, privateGames s !! t = Some g → host g = a → truthy_opt (guest g) = false →
       rewritten (join_private_game c t s) ∧ rewritten (Legacy.join_private_game c t s)).
Proof.
  intros Ha Hb Hca Hcb Hab Hpa Hpc told rewritten.
  destruct (install_pair_lookup (matches s) a c) as [H1 H2].
  assert (H3 : install_pair (matches s) (a, c) !! b = Some a)
    by (by rewrite install_pair_other).
  split.
  - intros Hq.
    assert (Hreg : both_registered (players s) (a, c) = true).
    { unfold both_registered. cbn. rewrite Hpa, Hpc.
      by rewrite !bool_decide_eq_true_2 by eauto. }
    assert (Htold : announce_pair (players s) (a, c) = told).
    { unfold announce_pair. cbn. by rewrite Hpa, Hpc. }
    split.
    + rewrite matchQuickPlayers_run, Hq. unfold rewritten, drained, formed.
      cbn [couples List.filter completed final trace fst snd]. rewrite Hreg.
      cbn [foldl flat_map matches]. rewrite Htold, app_nil_r. done.
    + rewrite legacy_matchQuickPlayers_run, Hq. unfold rewritten, legacy_drained, formed.
      cbn [couples List.filter completed final trace fst snd]. rewrite Hreg.
      cbn [foldl flat_map matches]. rewrite Htold, app_nil_r. done.
  - intros t g Hg Hh Hgu. subst a.
    destruct (join_accepted_run s c t g pa pc) as [-> ->]; try done.
Qed.

Lemma pairing_overwrites_witness :
  let s := State {["alice" := Player 1 None; "bob" := Player 2 None; "carol" := Player 3 None]}
                 ∅ ["alice"; "carol"] ∅ {["alice" := "bob"; "bob" := "alice"]} ∅ ∅ in
  matches (final (matchQuickPlayers s)) !! "alice" = Some "carol"
  ∧ matches (final (matchQuickPlayers s)) !! "bob" = Some "alice".
Proof.
  intros s.
  destruct (pairing_overwrites s "alice" "bob" "carol" (Player 1 None) (Player 3 None))
    as [Hq _]; [reflexivity | reflexivity | discriminate | discriminate | discriminate
               | reflexivity | reflexivity |].
  destruct Hq as [(_ & _ & H1 & _ & H2) _]; [reflexivity|].
  by split.
Defined.

Lemma symmetric_install_pair m a b :
  symmetric m → m !! a = None → m !! b = None → symmetric (install_pair m (a, b)).
Proof.
  intros Hsym Ha Hb x y Hxy.
  destruct (install_pair_lookup m a b) as [H1 H2].
  destruct (decide (x = b)) as [->|Hxb].
  { rewrite H2 in Hxy. injection Hxy as <-. by right. }
  destruct (decide (x = a)) as [->|Hxa].
  { rewrite H1 in Hxy. injection Hxy as <-. by right. }
  rewrite install_pair_other in Hxy by done.
  destruct (Hsym x y Hxy) as [-> | Hyx]; [by left | right].
  rewrite install_pair_other; [done | congruence..].
Qed.

Lemma symmetric_unpaired m p :
  symmetric m → m !! p ≠ Some "IA" → symmetric (unpaired p m).
Proof.
  intros Hsym Hia. unfold unpaired.
  destruct (m !! p) as [q|] eqn:Hp; [|done].
  destruct (truthy_str q); [|done].
  rewrite bool_decide_eq_false_2 by congruence.
  intros x y Hxy.
  apply lookup_delete_Some in Hxy as [Hxq Hxy].
  apply lookup_delete_Some in Hxy as [Hxp Hxy].
  destruct (Hsym x y Hxy) as [-> | Hyx]; [by left | right].
  destruct (Hsym p q Hp) as [-> | Hqp]; [done|].
  rewrite !lookup_delete_ne; [done | congruence..].
Qed.

Lemma unpaired_both_gone m p q :
  m !! p = Some q → truthy_str q = true → q ≠ "IA" →
  unpaired p m !! p = None ∧ unpaired p m !! q = None.
Proof.
  intros Hp Hq Hia. unfold unpaired. rewrite Hp, Hq, bool_decide_eq_false_2 by done.
  split; [|apply lookup_delete_eq].
  destruct (decide (q = p)) as [->|]; [apply lookup_delete_eq|].
  by rewrite lookup_delete_ne, lookup_delete_eq.
Qed.

(** C6, counterexample. With "alice" and "bob" matched, [matches] is
    symmetric. After "alice" queues again and is paired with "carol", it is
    not: "bob" names "alice", whose entry names "carol". *)
Lemma pairing_breaks_symmetry :
  ∃ W W', run [(1, guest_login "alice"); (2, guest_login "bob");
               (1, In_quick_match); (2, In_quick_match)] boot = Some W
    ∧ run [(3, guest_login "carol"); (1, In_quick_match); (3, In_quick_match)] W = Some W'
    ∧ symmetric (matches (tables W))
    ∧ ¬ symmetric (matches (tables W')).
Proof.
  eexists _, _. split; [vm_compute; reflexivity|].
  split; [vm_compute; reflexivity|]. split.
  - apply (bool_decide_unpack _). by vm_compute.
  - intros H. destruct (H "bob" "alice") as [Hia | Hback].
    + by vm_compute.
    + discriminate Hia.
    + vm_compute in Hback. discriminate Hback.
Qed.

Lemma match_pair_matches s a b :
  (both_registered (players s) (a, b) = true →
     matches (final (match_pair a b s)) = install_pair (matches s) (a, b)
     ∧ matches (final (Legacy.match_pair a b s)) = install_pair (matches s) (a, b))
  ∧ (both_registered (players s) (a, b) = false →
     matches (final (match_pair a b s)) = matches s
     ∧ matches (final (Legacy.match_pair a b s)) = matches s).
Proof.
  rewrite match_pair_run, legacy_match_pair_run.
  split; intros ->; done.
Qed.

Lemma join_matches s cur t :
  match join_check s cur t, privateGames s !! t with
  | None, Some g =>
      matches (final (join_private_game cur t s)) = install_pair (matches s) (host g, cur)
      ∧ matches (final (Legacy.join_private_game cur t s))
        = install_pair (matches s) (host g, cur)
  | _, _ =>
      matches (final (join_private_game cur t s)) = matches s
      ∧ matches (final (Legacy.join_private_game cur t s)) = matches s
  end.
Proof.
  destruct (join_check s cur t) as [e|] eqn:Hc.
  - destruct (join_refused _ _ _ _ Hc) as [-> ->]. by rewrite send_to_final.
  - unfold join_check in Hc. unfold join_private_game, Legacy.join_private_game.
    rewrite !bind_get.
    destruct (privateGames s !! t) as [g|]; [|done].
    case_bool_decide; [done|].
    destruct (truthy_opt (guest g)); [done|].
    rewrite !bind_modify. unfold bind, send_to. cbn.
    destruct (players s !! host g); cbn; [|done].
    by destruct (players s !! cur).
Qed.

(** C6, amended. Pairing installs both directed entries: after the queue
    loop pairs [a] with [b], or after [b] joins a lobby hosted by [a], the
    opponent of [a] is [b] and the opponent of [b] is [a].
    [removePlayerFromMatch a], when the opponent [b] of [a] is a non-empty
    name other than "IA", removes the entries of both [a] and [b]. A
    symmetric table (every entry reciprocated, except entries whose value
    is "IA") stays symmetric under [removePlayerFromMatch a] unless the
    entry of [a] is "IA", and under a pairing of two names that had no
    entry. *)
Theorem matches_symmetry (s : state) (a b : string) :
  let paired (r : option unit * state * list effect) :=
    matches (final r) !! a = Some b ∧ matches (final r) !! b = Some a in
  (both_registered (players s) (a, b) = true →
     paired (match_pair a b s) ∧ paired (Legacy.match_pair a b s))
  ∧ (∀ t g, privateGames s !! t = Some g → host g = a → a ≠ b →
       truthy_opt (guest g) = false →
       paired (join_private_game b t s) ∧ paired (Legacy.join_private_game b t s))
  ∧ (matches s !! a = Some b → truthy_str b = true → b ≠ "IA" →
       matches (final (removePlayerFromMatch a s)) !! a = None
       ∧ matches (final (removePlayerFromMatch a s)) !! b = None)
  ∧ (symmetric (matches s) →
       (matches s !! a ≠ Some "IA" →
          symmetric (matches (final (removePlayerFromMatch a s))))
       ∧ (matches s !! a = None → matches s !! b = None →
            symmetric (matches (final (match_pair a b s)))
            ∧ symmetric (matches (final (Legacy.match_pair a b s)))
            ∧ ∀ t g, privateGames s !! t = Some g → host g = a →
                symmetric (matches (final (join_private_game b t s)))
                ∧ symmetric (matches (final (Legacy.join_private_game b t s))))).
Proof.
  intros paired. unfold paired.
  destruct (install_pair_lookup (matches s) a b) as [Hab Hba].
  split_and!.
  - intros Hreg. destruct (match_pair_matches s a b) as [[-> ->] _]; done.
  - intros t g Hg Hh Hne Hgu. pose proof (join_matches s b t) as Hj.
    unfold join_check in Hj. rewrite Hg, bool_decide_eq_false_2, Hgu, Hh in Hj by congruence.
    by destruct Hj as [-> ->].
  - intros Hm Hb Hia. rewrite removePlayerFromMatch_run. by apply unpaired_both_gone.
  - intros Hsym. split.
    + intros Hia. rewrite removePlayerFromMatch_run. by apply symmetric_unpaired.
    + intros Ha Hb.
      assert (Hinst : symmetric (install_pair (matches s) (a, b)))
        by (by apply symmetric_install_pair).
      split_and!.
      * destruct (both_registered (players s) (a, b)) eqn:Hreg.
        -- by destruct (match_pair_matches s a b) as [[-> _] _].
        -- by destruct (match_pair_matches s a b) as [_ [-> _]].
      * destruct (both_registered (players s) (a, b)) eqn:Hreg.
        -- by destruct (match_pair_matches s a b) as [[_ ->] _].
        -- by destruct (match_pair_matches s a b) as [_ [_ ->]].
      * intros t g Hg Hh. pose proof (join_matches s b t) as Hj.
        rewrite Hg, Hh in Hj.
        destruct (join_check s b t); by destruct Hj as [-> ->].
Qed.

Lemma matches_symmetry_witness :
  let s := State {["alice" := Player 1 None; "bob" := Player 2 None]} ∅ [] ∅
                 {["alice" := "bob"; "bob" := "alice"]} ∅ ∅ in
  matches (final (removePlayerFromMatch "alice" s)) !! "alice" = None
  ∧ matches (final (removePlayerFromMatch "alice" s)) !! "bob" = None
  ∧ symmetric (matches (final (removePlayerFromMatch "alice" s))).
Proof.
  intros s.
  destruct (matches_symmetry s "alice" "bob") as (_ & _ & Hgone & Hsym).
  destruct Hgone as [H1 H2]; [reflexivity | reflexivity | discriminate |].
  destruct Hsym as [Hrm _].
  { apply (bool_decide_unpack _). by vm_compute. }
  split_and!; [done | done | apply Hrm; discriminate].
Defined.

(** * Further properties of the handlers *)

(** ** Ready votes: the other branches *)

Lemma ready_both_run (s : state) (cur opp : string)
    (data_ready : jsval) (p o : player) :
  matches s !! cur = Some opp →
  live_opponent s (Some opp) = true →
  opp ≠ cur →
  players s !! cur = Some p →
  players s !! opp = Some o →
  truthy data_ready = true →
  truthy (ready_of s opp) = true →
  ready_for_next_round cur data_ready s
    = (Some tt,
       with_ready (λ r, <[opp := JBool false]> (<[cur := JBool false]> r)) s,
       [Send (ws p) start_new_round; Send (ws o) start_new_round]).
Proof.
  intros Hm Hlive Hne Hp Ho Hr Hro.
  unfold ready_for_next_round. rewrite bind_modify, bind_get.
  set (voted := with_ready (<[cur := data_ready]>) s).
  change (matches voted) with (matches s). rewrite Hm.
  change (live_opponent voted (Some opp)) with (live_opponent s (Some opp)).
  rewrite Hlive.
  assert (Hcur : ready_of voted cur = data_ready).
  { unfold ready_of, voted. cbn. by rewrite lookup_insert_eq. }
  assert (Hopp : ready_of voted opp = ready_of s opp).
  { unfold ready_of, voted. cbn. by rewrite lookup_insert_ne. }
  rewrite Hcur, Hopp, Hr, Hro. cbn [andb].
  unfold bind, send_to, modify. change (players voted) with (players s).
  rewrite Hp. cbn. rewrite Ho. cbn.
  unfold with_ready. cbn. by rewrite insert_insert_eq.
Qed.

(** X1. When the vote just stored and the opponent's stored vote are both
    truthy, both participants are sent [start_new_round], both votes are
    reset to [false], and nothing else changes. *)
Theorem ready_both_start_new_round (s : state) (cur opp : string)
    (data_ready : jsval) (p o : player) :
  matches s !! cur = Some opp →
  live_opponent s (Some opp) = true →
  opp ≠ cur →
  players s !! cur = Some p →
  players s !! opp = Some o →
  truthy data_ready = true →
  truthy (ready_of s opp) = true →
  ready_for_next_round cur data_ready s
    = (Some tt,
       with_ready (λ r, <[opp := JBool false]> (<[cur := JBool false]> r)) s,
       [Send (ws p) start_new_round; Send (ws o) start_new_round]).
Proof. apply ready_both_run. Qed.

Lemma ready_both_start_new_round_witness :
  let s := State {["alice" := Player 1 None; "bob" := Player 2 None]} ∅ [] ∅
                 {["alice" := "bob"; "bob" := "alice"]}
                 {["alice" := JBool false; "bob" := JBool true]} ∅ in
  trace (ready_for_next_round "alice" (JBool true) s)
    = [Send 1 start_new_round; Send 2 start_new_round].
Proof.
  intros s.
  by rewrite (ready_both_start_new_round s "alice" "bob" (JBool true)
                (Player 1 None) (Player 2 None)).
Defined.

Lemma ready_mismatch_run (s : state) (cur opp : string) (data_ready : jsval) (p : player) :
  matches s !! cur = Some opp →
  live_opponent s (Some opp) = true →
  opp ≠ cur →
  players s !! cur = Some p →
  truthy data_ready = true →
  truthy (ready_of s opp) = false →
  ready_for_next_round cur data_ready s
    = (Some tt, with_ready (<[cur := data_ready]>) s,
       [Send (ws p) (opponent_left msg_opponent_left)]).
Proof.
  intros Hm Hlive Hne Hp Hr Hro.
  unfold ready_for_next_round. rewrite bind_modify, bind_get.
  set (voted := with_ready (<[cur := data_ready]>) s).
  change (matches voted) with (matches s). rewrite Hm.
  change (live_opponent voted (Some opp)) with (live_opponent s (Some opp)).
  rewrite Hlive.
  assert (Hcur : ready_of voted cur = data_ready).
  { unfold ready_of, voted. cbn. by rewrite lookup_insert_eq. }
  assert (Hopp : ready_of voted opp = ready_of s opp).
  { unfold ready_of, voted. cbn. by rewrite lookup_insert_ne. }
  rewrite Hcur, Hopp, Hr, Hro. cbn [andb]. unfold strict_eq.
  rewrite bool_decide_eq_false_2; [|intros Heq; by rewrite Heq, Hro in Hr].
  cbn [negb]. unfold send_to. change (players voted) with (players s). by rewrite Hp.
Qed.

(** X2. The ready negotiation after a pairing. Take two different registered
    participants [a] and [b], matched with each other, each a live opponent
    for the other (both names are non-empty and neither is "IA", as the
    guard of the handler requires), both votes [false] as the pairing
    leaves them. When [a] votes [true] and then [b] votes [true], [a] is
    first told [opponent_left] (its vote met the [false] of [b]), then both
    are told [start_new_round]; afterwards both votes are [false] again and
    the tables are what they were. *)
Theorem ready_cycle (s : state) (a b : string) (pa pb : player) :
  matches s !! a = Some b →
  matches s !! b = Some a →
  a ≠ b →
  truthy_str a = true → truthy_str b = true → a ≠ "IA" → b ≠ "IA" →
  players s !! a = Some pa →
  players s !! b = Some pb →
  playerReadyState s !! a = Some (JBool false) →
  playerReadyState s !! b = Some (JBool false) →
  (ready_for_next_round a (JBool true);; ready_for_next_round b (JBool true))%handler s
    = (Some tt, s,
       [Send (ws pa) (opponent_left msg_opponent_left);
        Send (ws pb) start_new_round; Send (ws pa) start_new_round]).
Proof.
  intros Hab Hba Hne Ha Hb Hia Hib Hpa Hpb Hra Hrb.
  assert (Hla : live_opponent s (Some b) = true).
  { unfold live_opponent. rewrite Hb, (has_player_lookup _ _ _ Hpb).
    by rewrite bool_decide_eq_false_2. }
  assert (Hlb : live_opponent s (Some a) = true).
  { unfold live_opponent. rewrite Ha, (has_player_lookup _ _ _ Hpa).
    by rewrite bool_decide_eq_false_2. }
  rewrite (bind_ok _ _ _ _ _ _
             (ready_mismatch_run s a b (JBool true) pa Hab Hla (not_eq_sym Hne) Hpa eq_refl
                ltac:(unfold ready_of; by rewrite Hrb))).
  set (voted := with_ready (<[a := JBool true]>) s).
  rewrite (ready_both_run voted b a (JBool true) pb pa); try done.
  - cbn [fst snd]. f_equal. f_equal.
    destruct s as [P Md Q G M R A]. unfold voted, with_ready. cbn in *. f_equal.
    apply map_eq. intros k.
    destruct (decide (k = a)) as [->|Hka]; [by rewrite lookup_insert_eq|].
    rewrite lookup_insert_ne by done.
    destruct (decide (k = b)) as [->|Hkb]; [by rewrite lookup_insert_eq|].
    by rewrite !lookup_insert_ne.
  - unfold ready_of, voted. cbn. by rewrite lookup_insert_eq.
Qed.

Lemma ready_cycle_witness :
  let s := State {["alice" := Player 1 None; "bob" := Player 2 None]} ∅ [] ∅
                 {["alice" := "bob"; "bob" := "alice"]}
                 {["alice" := JBool false; "bob" := JBool false]} ∅ in
  final ((ready_for_next_round "alice" (JBool true);;
          ready_for_next_round "bob" (JBool true))%handler s) = s.
Proof.
  intros s.
  by rewrite (ready_cycle s "alice" "bob" (Player 1 None) (Player 2 None)).
Defined.

(** ** Queueing for a quick match *)

Lemma quick_match_run (s : state) (cur : string) :
  quick_match cur s
    = matchQuickPlayers (if bool_decide (cur ∈ quickMatchQueue s) then s
                         else with_queue (λ q, q ++ [cur]) s).
Proof.
  unfold quick_match. rewrite bind_get.
  case_bool_decide; [|by rewrite bind_modify].
  unfold bind, ret. by destruct (matchQuickPlayers s) as [[? ?] ?].
Qed.

Lemma legacy_quick_match_run (s : state) (cur : string) :
  Legacy.quick_match cur s
    = Legacy.matchQuickPlayers (if bool_decide (cur ∈ quickMatchQueue s) then s
                                else with_queue (λ q, q ++ [cur]) s).
Proof.
  unfold Legacy.quick_match. rewrite bind_get.
  case_bool_decide; [|by rewrite bind_modify].
  unfold bind, ret. by destruct (Legacy.matchQuickPlayers s) as [[? ?] ?].
Qed.

Lemma quick_match_waits_run (s : state) (cur : string) :
  (quickMatchQueue s = [] →
     quick_match cur s = (Some tt, with_queue (λ _, [cur]) s, [])
     ∧ Legacy.quick_match cur s = (Some tt, with_queue (λ _, [cur]) s, []))
  ∧ (quickMatchQueue s = [cur] →
     quick_match cur s = (Some tt, s, [])
     ∧ Legacy.quick_match cur s = (Some tt, s, [])).
Proof.
  split; intros Hq.
  - rewrite quick_match_run, legacy_quick_match_run, Hq.
    rewrite bool_decide_eq_false_2 by apply not_elem_of_nil.
    rewrite matchQuickPlayers_run, legacy_matchQuickPlayers_run.
    destruct s as [P Md Q G M R A]. cbn in Hq. subst Q. done.
  - rewrite quick_match_run, legacy_quick_match_run, Hq.
    rewrite bool_decide_eq_true_2 by apply list_elem_of_singleton, eq_refl.
    rewrite matchQuickPlayers_run, legacy_matchQuickPlayers_run.
    destruct s as [P Md Q G M R A]. cbn in Hq. subst Q. done.
Qed.

(** X3. The first to ask waits: on an empty queue, [quick_match] only appends the
    sender, sends nothing and pairs nobody; asking again while being the
    only one waiting changes nothing at all. Both servers. *)
Theorem quick_match_first_waits (s : state) (cur : string) :
  (quickMatchQueue s = [] →
     quick_match cur s = (Some tt, with_queue (λ _, [cur]) s, [])
     ∧ Legacy.quick_match cur s = (Some tt, with_queue (λ _, [cur]) s, []))
  ∧ (quickMatchQueue s = [cur] →
     quick_match cur s = (Some tt, s, [])
     ∧ Legacy.quick_match cur s = (Some tt, s, [])).
Proof. apply quick_match_waits_run. Qed.

Lemma quick_match_pairs_run (s : state) (a b : string) (pa pb : player) :
  quickMatchQueue s = [a] →
  b ≠ a →
  players s !! a = Some pa →
  players s !! b = Some pb →
  let told := [Send (ws pa) (game_joined b); Send (ws pb) (game_joined a)] in
  quick_match b s
    = (Some tt,
       State (players s) (playerModes s) [] (privateGames s)
             (<[b := a]> (<[a := b]> (matches s)))
             (<[b := JBool false]> (<[a := JBool false]> (playerReadyState s)))
             (authenticatedUsers s),
       told)
  ∧ Legacy.quick_match b s
    = (Some tt,
       State (players s) (playerModes s) [] (privateGames s)
             (<[b := a]> (<[a := b]> (matches s)))
             (playerReadyState s) (authenticatedUsers s),
       told).
Proof.
  intros Hq Hne Hpa Hpb told.
  rewrite quick_match_run, legacy_quick_match_run, Hq.
  rewrite bool_decide_eq_false_2 by (by rewrite list_elem_of_singleton).
  rewrite matchQuickPlayers_run, legacy_matchQuickPlayers_run.
  unfold drained, legacy_drained, formed. cbn [quickMatchQueue with_queue players].
  rewrite Hq. cbn [app couples List.filter leftover].
  assert (Hreg : both_registered (players s) (a, b) = true).
  { unfold both_registered. cbn. rewrite Hpa, Hpb.
    by rewrite !bool_decide_eq_true_2 by eauto. }
  rewrite Hreg. cbn [foldl flat_map]. unfold announce_pair. cbn. rewrite Hpa, Hpb.
  done.
Qed.

Lemma quick_match_drops_run (s : state) (a b : string) :
  quickMatchQueue s = [a] →
  b ≠ a →
  players s !! a = None ∨ players s !! b = None →
  quick_match b s = (Some tt, with_queue (λ _, []) s, [])
  ∧ Legacy.quick_match b s = (Some tt, with_queue (λ _, []) s, []).
Proof.
  intros Hq Hne Hgone.
  rewrite quick_match_run, legacy_quick_match_run, Hq.
  rewrite bool_decide_eq_false_2 by (by rewrite list_elem_of_singleton).
  rewrite matchQuickPlayers_run, legacy_matchQuickPlayers_run.
  unfold drained, legacy_drained, formed. cbn [quickMatchQueue with_queue players].
  rewrite Hq. cbn [app couples List.filter leftover].
  assert (Hreg : both_registered (players s) (a, b) = false).
  { unfold both_registered. cbn. apply andb_false_iff.
    destruct Hgone as [Ha | Hb]; [left | right];
      apply bool_decide_eq_false_2; [rewrite Ha | rewrite Hb]; apply is_Some_None. }
  rewrite Hreg. done.
Qed.

(** X4. The second to ask meets the one waiting. With [a] alone in the queue,
    a [quick_match] from a different name [b] empties the queue.
    - If [a] and [b] are both registered, they become each other's
      opponent, their two ready votes are reset to [false], and each is
      told the name of the other, the one who waited first. The guest-only
      server does the same without the votes.
    - If either is not registered (the waiting name may have been queued
      by a connection that does not hold it), nobody is paired and nothing
      is sent: both names have left the queue and no other table
      changes. *)
Theorem quick_match_pairs_waiting (s : state) (a b : string) :
  quickMatchQueue s = [a] →
  b ≠ a →
  (∀ pa pb, players s !! a = Some pa → players s !! b = Some pb →
     let told := [Send (ws pa) (game_joined b); Send (ws pb) (game_joined a)] in
     quick_match b s
       = (Some tt,
          State (players s) (playerModes s) [] (privateGames s)
                (<[b := a]> (<[a := b]> (matches s)))
                (<[b := JBool false]> (<[a := JBool false]> (playerReadyState s)))
                (authenticatedUsers s),
          told)
     ∧ Legacy.quick_match b s
       = (Some tt,
          State (players s) (playerModes s) [] (privateGames s)
                (<[b := a]> (<[a := b]> (matches s)))
                (playerReadyState s) (authenticatedUsers s),
          told))
  ∧ (players s !! a = None ∨ players s !! b = None →
     quick_match b s = (Some tt, with_queue (λ _, []) s, [])
     ∧ Legacy.quick_match b s = (Some tt, with_queue (λ _, []) s, [])).
Proof.
  intros Hq Hne. split.
  - intros pa pb Hpa Hpb. by apply quick_match_pairs_run.
  - by apply quick_match_drops_run.
Qed.

Lemma quick_match_pairs_waiting_witness :
  let s := State {["alice" := Player 1 None; "bob" := Player 2 None]} ∅ ["alice"] ∅ ∅ ∅ ∅ in
  trace (quick_match "bob" s)
    = [Send 1 (game_joined "bob"); Send 2 (game_joined "alice")].
Proof.
  intros s.
  destruct (quick_match_pairs_waiting s "alice" "bob") as [H _];
    [reflexivity | discriminate |].
  destruct (H (Player 1 None) (Player 2 None)) as [Hrun _]; [reflexivity | reflexivity |].
  by rewrite Hrun.
Defined.

Lemma quick_match_first_waits_witness :
  let s := State {["alice" := Player 1 None]} ∅ [] ∅ ∅ ∅ ∅ in
  quick_match "alice" s = (Some tt, with_queue (λ _, ["alice"]) s, []).
Proof.
  intros s. destruct (quick_match_first_waits s "alice") as [H _].
  apply H. reflexivity.
Defined.

(** ** Invariants along every run *)

Lemma leftover_length q : (length (leftover q) ≤ 1)%nat.
Proof.
  induction q as [|x|x y q IH] using queue_pair_ind; cbn; [lia | lia | done].
Qed.

Lemma remove_first_length x q : (length (remove_first x q) ≤ length q)%nat.
Proof.
  induction q as [|y q IH]; cbn; [done|]. case_bool_decide; cbn; lia.
Qed.

Lemma quick_match_queue_short cur s : queue_short (final (quick_match cur s)).
Proof.
  rewrite quick_match_run, matchQuickPlayers_run. unfold queue_short. cbn.
  apply leftover_length.
Qed.

Lemma dispatch_queue_short w c ev : preserved queue_short (dispatch w c ev).
Proof.
  destruct ev; cbn [dispatch];
    try (intros s _; apply quick_match_queue_short);
    unfold register, login, login_token, login_password, login_guest,
           install_authenticated, logout, select_mode, play_ai,
           create_private_game, join_private_game, play_online, announce_result,
           ready_for_next_round, leave_game, close, notify_opponent_left,
           removePlayerFromMatch, remove_from_queue, remove_hosted,
           broadcastOnlineCount, broadcastRanking;
    preserve_with ltac:(first [ done
                              | unfold queue_short in *; cbn;
                                etrans; [apply remove_first_length|done] ]).
Qed.

(** X5. At most one name waits. Every [quick_match] ends with the loop that
    empties the queue two by two, and nothing else adds to the queue, so in
    every state the server reaches the queue holds at most one name. *)
Theorem queue_short_run (W : world) :
  reachable W → (length (quickMatchQueue (tables W)) ≤ 1)%nat.
Proof.
  intros [evs Hrun].
  apply (run_invariant_on (λ _, True) queue_short) with evs boot;
    [| |unfold queue_short; cbn; lia|done].
  - intros w c ev _. apply dispatch_queue_short.
  - by apply Forall_forall.
Qed.

Lemma queue_short_run_witness :
  ∃ W, run [(1, guest_login "alice"); (1, In_quick_match)] boot = Some W
       ∧ (length (quickMatchQueue (tables W)) ≤ 1)%nat.
Proof.
  eexists. split; [vm_compute; reflexivity|].
  apply queue_short_run.
  exists [(1, guest_login "alice"); (1, In_quick_match)]. vm_compute. reflexivity.
Defined.

Lemma hoare_weaken {A} (Pre Pre' Post : state → Prop) (m : M A) :
  (∀ s, Pre' s → Pre s) → hoare Pre m Post → hoare Pre' m Post.
Proof. intros HP Hm s Hs. by apply Hm, HP. Qed.

Lemma no_self_install m a b :
  a ≠ b → (∀ x, m !! x ≠ Some x) → ∀ x, install_pair m (a, b) !! x ≠ Some x.
Proof.
  intros Hab Hm x. destruct (install_pair_lookup m a b) as [H1 H2].
  destruct (decide (x = a)) as [->|Hxa]; [rewrite H1; congruence|].
  destruct (decide (x = b)) as [->|Hxb]; [rewrite H2; congruence|].
  rewrite install_pair_other by done. apply Hm.
Qed.

Lemma couples_distinct q c : NoDup q → c ∈ couples q → c.1 ≠ c.2.
Proof.
  induction q as [|x|x y q IH] using queue_pair_ind; cbn [couples].
  - intros _ H. by apply elem_of_nil in H.
  - intros _ H. by apply elem_of_nil in H.
  - intros [Hx [_ Hq]%NoDup_cons]%NoDup_cons [-> | Hc]%elem_of_cons.
    + cbn. intros ->. apply Hx. by left.
    + by apply IH.
Qed.

Lemma no_self_foldl (l : list (string * string)) m :
  (∀ c, c ∈ l → c.1 ≠ c.2) →
  (∀ x, m !! x ≠ Some x) → ∀ x, foldl install_pair m l !! x ≠ Some x.
Proof.
  revert m. induction l as [|[a b] l IH]; intros m Hl Hm; cbn [foldl]; [done|].
  apply IH.
  - intros c Hc. apply Hl. by right.
  - apply no_self_install; [|done]. apply (Hl (a, b)). by left.
Qed.

Lemma quick_match_no_self cur :
  hoare (λ s, queue_NoDup s ∧ no_self_match s) (quick_match cur) no_self_match.
Proof.
  intros s [Hq Hm]. rewrite quick_match_run, matchQuickPlayers_run.
  unfold no_self_match. cbn [final fst snd drained matches].
  apply no_self_foldl.
  - intros c [Hc _]%list_elem_of_In%filter_In. apply list_elem_of_In in Hc.
    revert Hc. apply couples_distinct.
    case_bool_decide as Hin; [done|]. cbn.
    apply NoDup_app. split_and!; [done | | apply NoDup_singleton].
    by intros x Hx ->%list_elem_of_singleton.
  - by case_bool_decide.
Qed.

Lemma join_no_self cur t : preserved no_self_match (join_private_game cur t).
Proof.
  intros s Hs. pose proof (join_matches s cur t) as Hj.
  unfold no_self_match. unfold join_check in Hj.
  destruct (privateGames s !! t) as [g|]; [|destruct Hj as [-> _]; done].
  case_bool_decide as Hh; [destruct Hj as [-> _]; done|].
  destruct (truthy_opt (guest g)); destruct Hj as [-> _]; [done|].
  by apply no_self_install.
Qed.

Lemma no_self_delete p s :
  no_self_match s → no_self_match (with_matches (delete p) s).
Proof.
  intros Hs x. cbn. intros [_ H]%lookup_delete_Some. by apply (Hs x).
Qed.

Lemma dispatch_no_self w c ev :
  hoare (λ s, queue_NoDup s ∧ no_self_match s) (dispatch w c ev) no_self_match.
Proof.
  destruct ev; cbn [dispatch];
    try apply quick_match_no_self;
    (apply (hoare_weaken no_self_match); [by intros ? [_ ?]|]);
    try apply join_no_self;
    unfold register, login, login_token, login_password, login_guest,
           install_authenticated, logout, select_mode, play_ai,
           create_private_game, play_online, announce_result,
           ready_for_next_round, leave_game, close, notify_opponent_left,
           removePlayerFromMatch, remove_from_queue, remove_hosted,
           broadcastOnlineCount, broadcastRanking;
    preserve_with ltac:(first [ done | by apply no_self_delete ]).
Qed.

(** X6. Nobody is matched with oneself. The queue never holds a name twice, so
    the loop pairs two different names, and a host is refused by its own
    lobby; hence in every state the server reaches no entry of [matches]
    maps a name to itself. *)
Theorem no_self_match_run (W : world) :
  reachable W → ∀ x, matches (tables W) !! x ≠ Some x.
Proof.
  intros [evs Hrun].
  apply (run_invariant_on (λ _, True) (λ s, queue_NoDup s ∧ no_self_match s))
    with evs boot; [| |split; [apply NoDup_nil_2 | by intros x]|done].
  - intros w c ev _ s Hs. split.
    + by apply dispatch_queue_NoDup, Hs.
    + by apply dispatch_no_self.
  - by apply Forall_forall.
Qed.

Lemma no_self_match_run_witness :
  ∃ W, run [(1, guest_login "alice"); (2, guest_login "bob");
            (1, In_quick_match); (2, In_quick_match)] boot = Some W
       ∧ matches (tables W) !! "alice" ≠ Some "alice".
Proof.
  eexists. split; [vm_compute; reflexivity|].
  apply no_self_match_run.
  exists [(1, guest_login "alice"); (2, guest_login "bob");
          (1, In_quick_match); (2, In_quick_match)].
  vm_compute. reflexivity.
Defined.

Lemma choices_valid_insert_fresh x w s :
  choices_valid s → choices_valid (with_players (<[x := Player w None]>) s).
Proof.
  intros Hs y p c. cbn. intros [[_ <-] | [_ Hy]]%lookup_insert_Some; [done|].
  by apply (Hs y).
Qed.

Lemma choices_valid_delete x s :
  choices_valid s → choices_valid (with_players (delete x) s).
Proof.
  intros Hs y p c. cbn. intros [_ Hy]%lookup_delete_Some. by apply (Hs y).
Qed.

Lemma choices_valid_set_choice x c :
  (∀ c', c = Some c' → valid_choice c' = true) →
  preserved choices_valid (set_choice x c).
Proof.
  intros Hc s Hs. unfold set_choice. destruct (players s !! x) as [p|]; [|done].
  intros y q c'. cbn. intros [[_ <-] | [_ Hy]]%lookup_insert_Some.
  - cbn. apply Hc.
  - by apply (Hs y).
Qed.

Ltac choices_kept :=
  repeat first
    [ preserve_step
    | apply preserved_modify; intros ? ?;
      first [ done | by apply choices_valid_insert_fresh | by apply choices_valid_delete ]
    | apply choices_valid_set_choice; congruence ].

Lemma play_online_choices_valid cur c : preserved choices_valid (play_online cur c).
Proof.
  unfold play_online. destruct (valid_choice c) eqn:Hc; cbn [negb];
    [|apply preserved_emit].
  unfold announce_result. choices_kept.
Qed.

Lemma dispatch_choices_valid w c ev : preserved choices_valid (dispatch w c ev).
Proof.
  destruct ev; cbn [dispatch];
    try apply play_online_choices_valid;
    unfold register, login, login_token, login_password, login_guest,
           install_authenticated, logout, select_mode, play_ai,
           quick_match, matchQuickPlayers,
           create_private_game, join_private_game,
           ready_for_next_round, leave_game, close, notify_opponent_left,
           removePlayerFromMatch, remove_from_queue, remove_hosted,
           broadcastOnlineCount, broadcastRanking;
    choices_kept.
  by apply drain_preserved.
Qed.

(** X7. Pending choices are always recognised symbols. A choice is stored only
    after it passed the validation, and is otherwise reset to [null]; hence
    in every state the server reaches, the pending choice of every
    registered participant is [null] or one of the three symbols. *)
Theorem choices_valid_run (W : world) :
  reachable W →
  ∀ x p c, players (tables W) !! x = Some p → choice p = Some c → valid_choice c = true.
Proof.
  intros [evs Hrun].
  apply (run_invariant_on (λ _, True) choices_valid) with evs boot; [| |by intros x|done].
  - intros w c ev _. apply dispatch_choices_valid.
  - by apply Forall_forall.
Qed.

Lemma guests_differ_create uuid cur s :
  guests_differ s → guests_differ (with_privateGames (<[uuid := Game cur None]>) s).
Proof.
  intros Hs t g. cbn. intros [[_ <-] | [_ Ht]]%lookup_insert_Some; [done|].
  by apply (Hs t).
Qed.

Lemma guests_differ_remove_hosted cur s :
  guests_differ s →
  guests_differ (with_privateGames (filter (λ kv : string * game, host kv.2 ≠ cur)) s).
Proof.
  intros Hs t g. cbn. intros [Hg _]%map_lookup_filter_Some. by apply (Hs t).
Qed.

Lemma join_guests_differ cur t : preserved guests_differ (join_private_game cur t).
Proof.
  intros s Hs. destruct (join_check s cur t) as [e|] eqn:Hc.
  - destruct (join_refused _ _ _ _ Hc) as [-> _]. by rewrite send_to_final.
  - unfold join_check in Hc.
    destruct (privateGames s !! t) as [g|] eqn:Hg; [|done].
    case_bool_decide as Hh; [done|].
    assert (Hc' : join_check s cur t = None).
    { unfold join_check. rewrite Hg, bool_decide_eq_false_2 by done. done. }
    destruct (join_accepted_lobbies _ _ _ _ Hg Hc') as [Hfin _].
    intros t' g'. rewrite Hfin. intros [[_ <-] | [_ Ht]]%lookup_insert_Some.
    + cbn. congruence.
    + by apply (Hs t').
Qed.

Lemma dispatch_guests_differ w c ev : preserved guests_differ (dispatch w c ev).
Proof.
  destruct ev; cbn [dispatch];
    try apply join_guests_differ;
    unfold register, login, login_token, login_password, login_guest,
           install_authenticated, logout, select_mode, play_ai,
           quick_match, matchQuickPlayers,
           create_private_game, play_online, announce_result,
           ready_for_next_round, leave_game, close, notify_opponent_left,
           removePlayerFromMatch, remove_from_queue, remove_hosted,
           broadcastOnlineCount, broadcastRanking;
    preserve_with ltac:(first [ done | by apply guests_differ_create
                              | by apply guests_differ_remove_hosted ]).
  by apply drain_preserved.
Qed.

(** X8. No lobby has its host as guest: a lobby is created without a guest and
    a join by the host is refused, so in every state the server reaches the
    guest of a lobby, if any, is not its host. *)
Theorem guests_differ_run (W : world) :
  reachable W →
  ∀ t g, privateGames (tables W) !! t = Some g → guest g ≠ Some (host g).
Proof.
  intros [evs Hrun].
  apply (run_invariant_on (λ _, True) guests_differ) with evs boot; [| |by intros x|done].
  - intros w c ev _. apply dispatch_guests_differ.
  - by apply Forall_forall.
Qed.

Lemma choices_valid_run_witness :
  ∃ W, run [(1, guest_login "alice"); (1, In_play_online "pierre")] boot = Some W
       ∧ (choice <$> players (tables W) !! "alice") = Some (Some "pierre")
       ∧ valid_choice "pierre" = true.
Proof.
  eexists. split; [vm_compute; reflexivity|]. split; [by vm_compute|].
  eapply choices_valid_run with (x := "alice");
    [exists [(1, guest_login "alice"); (1, In_play_online "pierre")]|..];
    vm_compute; reflexivity.
Defined.

Lemma guests_differ_run_witness :
  ∃ W, run [(1, guest_login "hote"); (2, guest_login "ami");
            (1, In_create_private_game "t"); (2, In_join_private_game "t")] boot = Some W
       ∧ privateGames (tables W) !! "t" = Some (Game "hote" (Some "ami"))
       ∧ Some "ami" ≠ Some "hote".
Proof.
  eexists. split; [vm_compute; reflexivity|].
  match goal with
  | |- privateGames (tables ?W) !! _ = _ ∧ _ =>
      assert (HW : reachable W)
        by (exists [(1, guest_login "hote"); (2, guest_login "ami");
                    (1, In_create_private_game "t"); (2, In_join_private_game "t")];
            vm_compute; reflexivity);
      assert (Hg : privateGames (tables W) !! "t" = Some (Game "hote" (Some "ami")))
        by (vm_compute; reflexivity);
      split; [exact Hg | exact (guests_differ_run W HW "t" _ Hg)]
  end.
Defined.

(** ** Private lobbies: creation, then join *)

Lemma create_private_game_run (s : state) (cur t : string) (p : player) :
  players s !! cur = Some p →
  create_private_game cur t s
    = (Some tt, with_privateGames (<[t := Game cur None]>) s,
       [Send (ws p) (private_game_created t)]).
Proof.
  intros Hp. unfold create_private_game. rewrite bind_modify.
  unfold send_to. cbn. by rewrite Hp.
Qed.

(** X9. A lobby round trip. A registered host creates a lobby under the
    identifier [t] and is sent that identifier; when another registered
    participant then joins [t], the lobby records the guest, host and guest
    become each other's opponent with both ready votes [false], and each is
    told the name of the other. (The guest-only server keeps no votes.) *)
Theorem create_then_join (s : state) (h g t : string) (ph pg : player) :
  players s !! h = Some ph →
  players s !! g = Some pg →
  g ≠ h →
  let told := [Send (ws ph) (private_game_created t);
               Send (ws ph) (game_joined g); Send (ws pg) (game_joined h)] in
  (create_private_game h t;; join_private_game g t)%handler s
    = (Some tt,
       State (players s) (playerModes s) (quickMatchQueue s)
             (<[t := Game h (Some g)]> (privateGames s))
             (<[g := h]> (<[h := g]> (matches s)))
             (<[g := JBool false]> (<[h := JBool false]> (playerReadyState s)))
             (authenticatedUsers s),
       told)
  ∧ (create_private_game h t;; Legacy.join_private_game g t)%handler s
    = (Some tt,
       State (players s) (playerModes s) (quickMatchQueue s)
             (<[t := Game h (Some g)]> (privateGames s))
             (<[g := h]> (<[h := g]> (matches s)))
             (playerReadyState s) (authenticatedUsers s),
       told).
Proof.
  intros Hh Hg Hne told.
  set (s1 := with_privateGames (<[t := Game h None]>) s).
  destruct (join_accepted_run s1 g t (Game h None) ph pg) as [H1 H2];
    [by apply lookup_insert_eq | by cbn | done | done | done |].
  rewrite !(bind_ok _ _ _ _ _ _ (create_private_game_run s h t ph Hh)).
  fold s1. rewrite H1, H2. cbn [fst snd host]. unfold install_pair, reset_votes.
  cbn. by rewrite insert_insert_eq.
Qed.

Lemma create_then_join_witness :
  let s := State {["hote" := Player 1 None; "ami" := Player 2 None]} ∅ [] ∅ ∅ ∅ ∅ in
  trace ((create_private_game "hote" "t";; join_private_game "ami" "t")%handler s)
    = [Send 1 (private_game_created "t"); Send 1 (game_joined "ami");
       Send 2 (game_joined "hote")].
Proof.
  intros s.
  destruct (create_then_join s "hote" "ami" "t" (Player 1 None) (Player 2 None))
    as [H _]; [reflexivity | reflexivity | discriminate |].
  by rewrite H.
Defined.

(** ** Leaving: what the teardown does *)

Lemma logout_run (w : conn) (cur : string) (tok : string) (ans : option string) (s : state) :
  truthy_str cur = true → truthy_str tok = true →
  logout w cur (Some tok) ans s
    = match ans with
      | None =>
          (Some tt, logged_out cur (with_auth (delete cur) s),
           Send w logout_success
             :: opponent_notice s cur
             ++ [BroadcastOnlineCount (size (delete cur (players s)))])
      | Some message =>
          (Some tt, logged_out cur s,
           Send w (logout_error message)
             :: opponent_notice s cur
             ++ [BroadcastOnlineCount (size (delete cur (players s)))])
      end.
Proof.
  intros Hcur Htok. unfold logout. cbn [truthy_opt]. rewrite Htok, Hcur.
  destruct ans as [message|].
  - unfold bind at 1. unfold emit at 1.
    rewrite (bind_ok _ _ _ _ _ _ (notify_opponent_left_run _ _)).
    rewrite !bind_modify.
    rewrite (bind_ok _ _ _ _ _ _ (removePlayerFromMatch_run _ _)).
    unfold remove_from_queue, remove_hosted. rewrite !bind_modify.
    reflexivity.
  - rewrite (bind_ok _ _ s tt (with_auth (delete cur) s) [Send w logout_success]);
      [|by rewrite bind_modify].
    rewrite (bind_ok _ _ _ _ _ _ (notify_opponent_left_run _ _)).
    rewrite !bind_modify.
    rewrite (bind_ok _ _ _ _ _ _ (removePlayerFromMatch_run _ _)).
    unfold remove_from_queue, remove_hosted. rewrite !bind_modify.
    reflexivity.
Qed.

Lemma legacy_close_run s cur :
  truthy_str cur = true →
  Legacy.close cur s =
    (Some tt,
     State (delete cur (players s)) (delete cur (playerModes s))
           (remove_first cur (quickMatchQueue s))
           (filter (λ kv : string * game, host kv.2 ≠ cur) (privateGames s))
           (unpaired cur (matches s))
           (playerReadyState s) (authenticatedUsers s),
     opponent_notice s cur ++ [BroadcastOnlineCount (size (delete cur (players s)))]).
Proof.
  intros Hcur. unfold Legacy.close. rewrite Hcur.
  rewrite (bind_ok _ _ _ _ _ _ (notify_opponent_left_run _ _)).
  rewrite !bind_modify.
  rewrite (bind_ok _ _ _ _ _ _ (removePlayerFromMatch_run _ _)).
  unfold remove_from_queue, remove_hosted. rewrite !bind_modify.
  reflexivity.
Qed.

Lemma opponent_notice_live s cur opp po :
  matches s !! cur = Some opp → truthy_str opp = true → opp ≠ "IA" →
  players s !! opp = Some po →
  opponent_notice s cur = [Send (ws po) (opponent_left msg_opponent_left)].
Proof.
  intros Hm Ht Hia Hpo. unfold opponent_notice, live_opponent.
  rewrite Hm, Ht, (has_player_lookup _ _ _ Hpo), Hpo.
  by rewrite bool_decide_eq_false_2.
Qed.

Lemma logout_any_run (w : conn) (cur : string) (tok ans : option string) (s : state) :
  truthy_str cur = true →
  logout w cur tok ans s
    = (Some tt, logged_out cur (logout_answered cur tok ans s),
       logout_ack w tok ans
         ++ opponent_notice s cur
         ++ [BroadcastOnlineCount (size (delete cur (players s)))]).
Proof.
  intros Hcur. unfold logout_answered, logout_ack.
  destruct (truthy_opt tok) eqn:Htok.
  - destruct tok as [tk|]; [|done]. cbn in Htok.
    rewrite logout_run by done. by destruct ans.
  - unfold logout. rewrite Htok, Hcur.
    unfold bind at 1. unfold ret at 1.
    rewrite (bind_ok _ _ _ _ _ _ (notify_opponent_left_run _ _)).
    rewrite !bind_modify.
    rewrite (bind_ok _ _ _ _ _ _ (removePlayerFromMatch_run _ _)).
    unfold remove_from_queue, remove_hosted. rewrite !bind_modify.
    reflexivity.
Qed.

Lemma logout_nameless_run (w : conn) (cur : string) (tok ans : option string) (s : state) :
  truthy_str cur = false →
  logout w cur tok ans s
    = (Some tt, logout_answered cur tok ans s, logout_ack w tok ans).
Proof.
  intros Hcur. unfold logout, logout_answered, logout_ack. rewrite Hcur.
  destruct (truthy_opt tok); [|done].
  destruct ans as [message|]; [done|].
  by rewrite (bind_ok _ _ s tt (with_auth (delete cur) s) [Send w logout_success])
    by (by rewrite bind_modify).
Qed.

(** X10. Leaving a match tells the opponent once and unpairs both sides. Let the
    sender's opponent be a registered participant whose name is neither
    empty nor "IA".
    - [leave_game] sends that opponent exactly one [opponent_left], removes
      the entries of both from [matches], sends nothing else and keeps the
      sender registered, whatever the sender's name.
    - When the sender's name is not empty, [close] (on both servers) and
      [logout] send that opponent exactly one [opponent_left], remove the
      entries of both from [matches], unregister the sender and then
      broadcast the new online count. [logout] does so whether or not the
      connection holds a token and whatever the account manager answers;
      its own answer to the sender, if any, comes first.
    - When the sender's name is the empty string, [close] does nothing and
      [logout] only answers: the opponent is not told, the two stay
      matched and the sender stays registered. *)
Theorem leaving_notifies_and_unpairs (s : state) (cur opp : string) (po : player)
    (w : conn) (tok ans : option string) :
  matches s !! cur = Some opp →
  truthy_str opp = true → opp ≠ "IA" →
  players s !! opp = Some po →
  let notice := Send (ws po) (opponent_left msg_opponent_left) in
  let count := BroadcastOnlineCount (size (delete cur (players s))) in
  let unpaired_in (s' : state) := matches s' !! cur = None ∧ matches s' !! opp = None in
  (trace (leave_game cur s) = [notice]
   ∧ unpaired_in (final (leave_game cur s))
   ∧ players (final (leave_game cur s)) = players s)
  ∧ (truthy_str cur = true →
     (trace (close cur s) = [notice; count]
      ∧ unpaired_in (final (close cur s))
      ∧ players (final (close cur s)) = delete cur (players s))
     ∧ (trace (Legacy.close cur s) = [notice; count]
        ∧ unpaired_in (final (Legacy.close cur s))
        ∧ players (final (Legacy.close cur s)) = delete cur (players s))
     ∧ (trace (logout w cur tok ans s) = logout_ack w tok ans ++ [notice; count]
        ∧ unpaired_in (final (logout w cur tok ans s))
        ∧ players (final (logout w cur tok ans s)) = delete cur (players s)))
  ∧ (truthy_str cur = false →
     close cur s = (Some tt, s, [])
     ∧ Legacy.close cur s = (Some tt, s, [])
     ∧ trace (logout w cur tok ans s) = logout_ack w tok ans
     ∧ matches (final (logout w cur tok ans s)) = matches s
     ∧ players (final (logout w cur tok ans s)) = players s).
Proof.
  intros Hm Ht Hia Hpo notice count unpaired_in.
  pose proof (opponent_notice_live s cur opp po Hm Ht Hia Hpo) as Hn.
  pose proof (unpaired_both_gone (matches s) cur opp Hm Ht Hia) as Hgone.
  split_and!.
  - by rewrite leave_game_run, Hn.
  - by rewrite leave_game_run.
  - by rewrite leave_game_run.
  - intros Hcur.
    rewrite close_run, legacy_close_run, logout_any_run by done.
    rewrite Hn. unfold logout_answered.
    destruct (truthy_opt tok); [destruct ans|]; by cbn.
  - intros Hcur. rewrite logout_nameless_run by done.
    unfold close, Legacy.close, logout_answered. rewrite Hcur.
    destruct (truthy_opt tok); [destruct ans|]; by cbn.
Qed.

Lemma leaving_notifies_and_unpairs_witness :
  let s := State {["alice" := Player 1 None; "bob" := Player 2 None]} ∅ [] ∅
                 {["alice" := "bob"; "bob" := "alice"]} ∅
                 {["alice" := AuthUser "u1" "tok" 1]} in
  trace (leave_game "alice" s) = [Send 2 (opponent_left msg_opponent_left)]
  ∧ trace (logout 1 "alice" (Some "tok") None s)
      = [Send 1 logout_success; Send 2 (opponent_left msg_opponent_left);
         BroadcastOnlineCount (size (delete "alice" (players s)))].
Proof.
  intros s.
  destruct (leaving_notifies_and_unpairs s "alice" "bob" (Player 2 None) 1 (Some "tok") None)
    as [[H _] [H' _]]; [reflexivity | reflexivity | discriminate | reflexivity |].
  destruct H' as (_ & _ & Hout & _); [reflexivity|].
  split; [exact H | exact Hout].
Defined.





(** ** Rounds *)

Lemma getResult_mirror x y :
  valid_choice x = true → valid_choice y = true →
  getResult y x = mirror (getResult x y).
Proof.
  intros Hx Hy.
  destruct (valid_choice_cases x Hx) as [-> | [-> | ->]];
    destruct (valid_choice_cases y Hy) as [-> | [-> | ->]]; by vm_compute.
Qed.

(** X13. The three symbols form a cycle: each recognised symbol beats exactly
    one recognised symbol, loses to exactly one, and draws only with
    itself. *)
Theorem getResult_cycle (x : string) :
  valid_choice x = true →
  ∃ y z, valid_choice y = true ∧ valid_choice z = true ∧ y ≠ z ∧
    ∀ w, valid_choice w = true →
      (getResult x w = res_player1 ↔ w = y)
      ∧ (getResult x w = res_player2 ↔ w = z)
      ∧ (getResult x w = res_draw ↔ w = x).
Proof.
  intros Hx.
  destruct (valid_choice_cases x Hx) as [-> | [-> | ->]].
  - exists "ciseaux", "feuille". split_and!; [done..|].
    intros w Hw. destruct (valid_choice_cases w Hw) as [-> | [-> | ->]]; by vm_compute.
  - exists "pierre", "ciseaux". split_and!; [done..|].
    intros w Hw. destruct (valid_choice_cases w Hw) as [-> | [-> | ->]]; by vm_compute.
  - exists "feuille", "pierre". split_and!; [done..|].
    intros w Hw. destruct (valid_choice_cases w Hw) as [-> | [-> | ->]]; by vm_compute.
Qed.

Lemma getResult_cycle_witness :
  ∃ y z, valid_choice y = true ∧ valid_choice z = true ∧ y ≠ z ∧
    ∀ w, valid_choice w = true →
      (getResult "pierre" w = res_player1 ↔ w = y)
      ∧ (getResult "pierre" w = res_player2 ↔ w = z)
      ∧ (getResult "pierre" w = res_draw ↔ w = "pierre").
Proof. apply (getResult_cycle "pierre"). reflexivity. Defined.

Lemma getRandomChoice_valid rnd : valid_choice (getRandomChoice rnd) = true.
Proof.
  unfold getRandomChoice.
  pose proof (Nat.mod_upper_bound rnd 3 ltac:(lia)) as Hlt.
  destruct (rnd mod 3) as [|[|[|n]]]; [done | done | done | lia].
Qed.

(** X14. A round against the automated opponent. For a recognised choice, the
    automated choice is one of the three symbols; a registered sender gets
    exactly one [ai_result] carrying both choices and the outcome, its score
    is incremented exactly when it wins (never otherwise), the ranking is
    broadcast, and no table changes: nothing is stored as a pending choice
    and [matches] is not consulted. *)
Theorem play_ai_round (s : state) (cur c : string) (rnd : nat) (p : player) :
  valid_choice c = true →
  players s !! cur = Some p →
  let ai := getRandomChoice rnd in
  valid_choice ai = true
  ∧ ∃ text,
      play_ai cur c rnd s
        = (Some tt, s,
           match getResult c ai with
           | res_player1 => [DbIncrementScore cur]
           | _ => []
           end
           ++ [Send (ws p) (ai_result text (ai_outcome (getResult c ai)) c ai);
               BroadcastRanking]).
Proof.
  intros Hc Hp ai. split; [apply getRandomChoice_valid|].
  unfold play_ai. rewrite Hc. cbn [negb]. fold ai.
  destruct (getResult c ai); eexists; unfold bind, emit, send_to, broadcastRanking;
    cbn; rewrite Hp; cbn; reflexivity.
Qed.

Lemma play_ai_round_witness :
  let s := State {["alice" := Player 1 None]} ∅ [] ∅ ∅ ∅ ∅ in
  final (play_ai "alice" "pierre" 2 s) = s.
Proof.
  intros s.
  destruct (play_ai_round s "alice" "pierre" 2 (Player 1 None)) as [_ [text H]];
    [reflexivity | reflexivity |].
  by rewrite H.
Defined.

(** ** Guest login *)

Lemma login_guest_fresh_run (s : state) (w : conn) (username : string) :
  players s !! username = None →
  login_guest w username s
    = (Some tt, with_players (<[username := Player w None]>) s,
       [DbEnsurePlayer username; Send w (login_success None None);
        BroadcastRanking; BroadcastOnlineCount (S (size (players s)))]).
Proof.
  intros Hfree. unfold login_guest. rewrite bind_get.
  assert (Hno : has_player s username = false).
  { unfold has_player. rewrite Hfree. by apply bool_decide_eq_false_2, is_Some_None. }
  rewrite Hno, bind_modify.
  unfold bind, emit, broadcastRanking, broadcastOnlineCount, get. cbn.
  by rewrite map_size_insert_None.
Qed.

(** X15. A guest login under a free name registers it on the sender's socket
    with no pending choice, asks the scoreboard to create the player if
    needed, acknowledges, and broadcasts the ranking and the online count,
    which has grown by one. From then on a guest login under that name is
    refused on any socket, with [login_error] to that socket only and no
    table changed. (The guest-only server's [login] is this code.) *)
Theorem guest_login_registers_once (s : state) (w w' : conn) (username : string) :
  players s !! username = None →
  let s' := with_players (<[username := Player w None]>) s in
  login_guest w username s
    = (Some tt, s',
       [DbEnsurePlayer username; Send w (login_success None None);
        BroadcastRanking; BroadcastOnlineCount (S (size (players s)))])
  ∧ login_guest w' username s' = (Some tt, s', [Send w' (login_error msg_name_taken)])
  ∧ Legacy.login w' username s' = (Some tt, s', [Send w' (login_error msg_name_taken)]).
Proof.
  intros Hfree s'. split_and!.
  - by apply login_guest_fresh_run.
  - apply login_guest_name_taken. unfold has_player, s'. cbn.
    rewrite lookup_insert_eq. by apply bool_decide_eq_true_2.
  - apply login_guest_name_taken. unfold has_player, s'. cbn.
    rewrite lookup_insert_eq. by apply bool_decide_eq_true_2.
Qed.

Lemma guest_login_registers_once_witness :
  trace (login_guest 1 "alice" initial)
    = [DbEnsurePlayer "alice"; Send 1 (login_success None None);
       BroadcastRanking; BroadcastOnlineCount 1].
Proof.
  destruct (guest_login_registers_once initial 1 2 "alice") as [H _]; [reflexivity|].
  by rewrite H.
Defined.

Lemma score_updates_swap a ca b cb :
  valid_choice ca = true → valid_choice cb = true →
  score_updates b cb a ca = round_score a ca b cb.
Proof.
  intros Ha Hb. unfold score_updates, round_score.
  rewrite (getResult_mirror ca cb) by done. by destruct (getResult ca cb).
Qed.

(** X16. A whole round leaves the tables as they were. Take two different
    registered participants [a] and [b], matched with each other, neither
    with a pending choice, the name of [a] not being the empty string (the
    second submission tests the name of its opponent, [a], for
    truthiness). After [a] submits the recognised symbol [ca] and then [b]
    submits the recognised symbol [cb], the first submission has sent
    nothing, the second has sent one [game_result] to each (the last sender
    first) and the ranking broadcast, and the tables are again exactly what
    they were before the round. The score goes to the one whose symbol
    wins, whoever submits last. Both servers. *)
Theorem round_is_neutral (s : state) (a b ca cb : string) (wa wb : conn) :
  players s !! a = Some (Player wa None) →
  players s !! b = Some (Player wb None) →
  matches s !! a = Some b →
  matches s !! b = Some a →
  a ≠ b →
  truthy_str a = true →
  valid_choice ca = true →
  valid_choice cb = true →
  (∃ m1 m2, is_game_result m1 ∧ is_game_result m2 ∧
     (play_online a ca;; play_online b cb)%handler s
       = (Some tt, s,
          round_score a ca b cb ++ [Send wb m1; Send wa m2; BroadcastRanking]))
  ∧ (∃ m1 m2, is_game_result m1 ∧ is_game_result m2 ∧
       (Legacy.play_online a ca;; Legacy.play_online b cb)%handler s
         = (Some tt, s,
            round_score a ca b cb ++ [Send wb m1; Send wa m2; BroadcastRanking])).
Proof.
  intros Hpa Hpb Hab Hba Hne Ha Hca Hcb.
  set (s1 := with_players (<[a := Player wa (Some ca)]>) s).
  assert (Hpa1 : players s1 !! a = Some (Player wa (Some ca)))
    by (cbn; apply lookup_insert_eq).
  assert (Hpb1 : players s1 !! b = Some (Player wb None))
    by (cbn; by rewrite lookup_insert_ne).
  assert (Hback :
    with_players (λ P, <[a := Player wa None]> (<[b := Player wb None]> P)) s1 = s).
  { destruct s as [P Md Q G M R A]. unfold s1, with_players. cbn in *. f_equal.
    apply map_eq. intros k.
    destruct (decide (k = a)) as [->|Hka]; [by rewrite lookup_insert_eq|].
    rewrite lookup_insert_ne by done.
    destruct (decide (k = b)) as [->|Hkb]; [by rewrite lookup_insert_eq|].
    by rewrite !lookup_insert_ne. }
  split.
  - destruct (play_online_resolves s1 b a cb (Player wb None) (Player wa (Some ca))
                Hcb Hpb1 Hba Hne Hpa1 ca Ha eq_refl)
      as (m1 & m2 & H1 & H2 & Hrun).
    { by destruct (valid_choice_cases ca Hca) as [-> | [-> | ->]]. }
    exists m1, m2. split_and!; [done..|].
    rewrite (bind_ok _ _ _ _ _ _
               (play_online_waits s a b ca (Player wa None) (Player wb None)
                  Hca Hpa Hab (not_eq_sym Hne) Hpb eq_refl)).
    change (with_players (<[a := Player (ws (Player wa None)) (Some ca)]>) s) with s1.
    cbv beta. rewrite Hrun. cbn [fst snd ws app].
    by rewrite Hback, score_updates_swap.
  - destruct (legacy_play_online_resolves s1 b a cb (Player wb None) (Player wa (Some ca))
                Hcb Hpb1 Hba Hne Hpa1 ca Ha eq_refl)
      as (m1 & m2 & H1 & H2 & Hrun).
    { by destruct (valid_choice_cases ca Hca) as [-> | [-> | ->]]. }
    exists m1, m2. split_and!; [done..|].
    rewrite (bind_ok _ _ _ _ _ _
               (legacy_play_online_waits s a b ca (Player wa None) (Player wb None)
                  Hca Hpa Hab (not_eq_sym Hne) Hpb eq_refl)).
    change (with_players (<[a := Player (ws (Player wa None)) (Some ca)]>) s) with s1.
    cbv beta. rewrite Hrun. cbn [fst snd ws app].
    by rewrite Hback, score_updates_swap.
Qed.

Lemma round_is_neutral_witness :
  let s := State {["alice" := Player 1 None; "bob" := Player 2 None]} ∅ [] ∅
                 {["alice" := "bob"; "bob" := "alice"]} ∅ ∅ in
  final ((play_online "alice" "pierre";; play_online "bob" "feuille")%handler s) = s.
Proof.
  intros s.
  destruct (round_is_neutral s "alice" "bob" "pierre" "feuille" 1 2)
    as [(m1 & m2 & _ & _ & H) _];
    [reflexivity | reflexivity | reflexivity | reflexivity | discriminate
    | reflexivity | reflexivity | reflexivity |].
  by rewrite H.
Defined.

(** ** A refused login still rebinds the connection *)

(** X17. The guest branch assigns [currentPlayer] before it looks the name up.
    So when a connection asks for a name that is registered, it is refused,
    no table changes, but the connection now acts under that name. When it
    then closes:
    - if the name is not the empty string, the [close] handler unregisters
      the participant who holds the name;
    - if the name is the empty string, the [close] handler does nothing:
      no table changes and nothing is sent. *)
Theorem refused_login_then_close_evicts (W : world) (w : conn) (x : string) (p : player) :
  players (tables W) !! x = Some p →
  ∃ W1 W2 t,
    on_event w (guest_login x) W = Some (W1, [Send w (login_error msg_name_taken)])
    ∧ tables W1 = tables W
    ∧ currentPlayer <$> sessions W1 !! w = Some x
    ∧ on_event w In_close W1 = Some (W2, t)
    ∧ (truthy_str x = true → players (tables W2) !! x = None)
    ∧ (truthy_str x = false → tables W2 = tables W ∧ t = []).
Proof.
  intros Hp.
  assert (Hlog : login w None x None (AuthErr "") (tables W)
                 = (Some tt, tables W, [Send w (login_error msg_name_taken)])).
  { unfold login. cbn [truthy_opt]. rewrite andb_false_r.
    apply login_guest_name_taken. by eapply has_player_lookup. }
  eexists _, _, _. split_and!.
  - unfold on_event, guest_login. rewrite Hlog. cbn. rewrite andb_false_r. reflexivity.
  - done.
  - cbn. by rewrite lookup_insert_eq.
  - unfold on_event. cbn [sessions tables]. rewrite lookup_insert_eq.
    cbn [dispatch currentPlayer]. reflexivity.
  - intros Hx. cbn [tables fst]. rewrite close_run by done. cbn. apply lookup_delete_eq.
  - intros Hx. cbn [tables fst]. unfold close. by rewrite Hx.
Qed.

Lemma refused_login_then_close_evicts_witness :
  ∃ W1 W2 t,
    on_event 2 (guest_login "alice")
             (World (State {["alice" := Player 1 None]} ∅ [] ∅ ∅ ∅ ∅)
                    {[1 := Session "alice" None]})
      = Some (W1, [Send 2 (login_error msg_name_taken)])
    ∧ tables W1 = State {["alice" := Player 1 None]} ∅ [] ∅ ∅ ∅ ∅
    ∧ currentPlayer <$> sessions W1 !! 2 = Some "alice"
    ∧ on_event 2 In_close W1 = Some (W2, t)
    ∧ players (tables W2) !! "alice" = None.
Proof.
  destruct (refused_login_then_close_evicts
              (World (State {["alice" := Player 1 None]} ∅ [] ∅ ∅ ∅ ∅)
                     {[1 := Session "alice" None]}) 2 "alice" (Player 1 None))
    as (W1 & W2 & t & H1 & H2 & H3 & H4 & H5 & _); [reflexivity|].
  exists W1, W2, t. split_and!; [done..|]. by apply H5.
Defined.

(** ** The guest-only server keeps the same invariants *)

Lemma legacy_drain_preserved (P : state → Prop) q :
  (∀ f s, P s → P (with_queue f s)) →
  (∀ f s, P s → P (with_matches f s)) →
  preserved P (Legacy.drain q).
Proof.
  intros Hq Hm.
  induction q as [|x|p1 p2 rest IH] using queue_pair_ind; cbn [Legacy.drain];
    [apply preserved_ret | apply preserved_ret |].
  apply preserved_bind; [apply preserved_modify, Hq|intros _].
  apply preserved_bind; [|intros _; apply IH].
  unfold Legacy.match_pair. preserve_with ltac:(by apply Hm).
Qed.

Lemma legacy_on_event_tables w ev W W' t :
  LegacyLoop.on_event w ev W = Some (W', t) →
  LegacyLoop.tables W' = LegacyLoop.tables W
  ∨ ∃ cur, LegacyLoop.tables W' = final (LegacyLoop.dispatch w cur ev (LegacyLoop.tables W)).
Proof.
  unfold LegacyLoop.on_event. intros Hev.
  destruct ev;
    try (injection Hev as <- _; right; by exists "");
    (destruct (LegacyLoop.sessions W !! w) as [c|];
      [injection Hev as <- _; right; by exists c
      |try discriminate; injection Hev as <- _; by left]).
Qed.

Lemma legacy_run_invariant (P : state → Prop) :
  (∀ w cur ev, preserved P (LegacyLoop.dispatch w cur ev)) →
  ∀ evs W W', P (LegacyLoop.tables W) → LegacyLoop.run evs W = Some W' →
    P (LegacyLoop.tables W').
Proof.
  intros HP evs. induction evs as [|[w ev] evs IH]; intros W W' HW; cbn.
  - by intros [= <-].
  - destruct (LegacyLoop.on_event w ev W) as [[W1 t]|] eqn:Hon; [|done].
    apply IH. destruct (legacy_on_event_tables _ _ _ _ _ Hon) as [-> | [c ->]]; [done|].
    by apply HP.
Qed.

Lemma legacy_quick_match_final cur s :
  final (Legacy.quick_match cur s)
  = legacy_drained (if bool_decide (cur ∈ quickMatchQueue s) then s
                    else with_queue (λ q, q ++ [cur]) s)
                   (if bool_decide (cur ∈ quickMatchQueue s) then quickMatchQueue s
                    else quickMatchQueue s ++ [cur]).
Proof.
  rewrite legacy_quick_match_run, legacy_matchQuickPlayers_run.
  by case_bool_decide.
Qed.

Lemma legacy_join_final cur t s (P : state → Prop) :
  P s →
  (∀ g, privateGames s !! t = Some g → host g ≠ cur →
        P (final (Legacy.join_private_game cur t s))) →
  P (final (Legacy.join_private_game cur t s)).
Proof.
  intros Hs Hacc. destruct (join_check s cur t) as [e|] eqn:Hc.
  - destruct (join_refused _ _ _ _ Hc) as [_ ->]. by rewrite send_to_final.
  - unfold join_check in Hc.
    destruct (privateGames s !! t) as [g|] eqn:Hg; [|done].
    case_bool_decide; [done|]. by apply (Hacc g).
Qed.

Ltac legacy_unfold :=
  unfold Legacy.login, login_guest, select_mode, play_ai,
         Legacy.quick_match, Legacy.matchQuickPlayers,
         create_private_game, Legacy.join_private_game,
         Legacy.play_online, Legacy.announce_result,
         leave_game, Legacy.close, notify_opponent_left,
         removePlayerFromMatch, remove_from_queue, remove_hosted,
         broadcastOnlineCount, broadcastRanking.

Lemma legacy_dispatch_queue w cur ev :
  preserved (λ s, queue_NoDup s ∧ queue_short s) (LegacyLoop.dispatch w cur ev).
Proof.
  destruct ev; cbn [LegacyLoop.dispatch].
  4:{ intros s [Hq _]. rewrite legacy_quick_match_final.
      unfold queue_NoDup, queue_short, legacy_drained. cbn [quickMatchQueue]. split.
      - eapply sublist_NoDup; [|rewrite leftover_drop; apply sublist_drop].
        case_bool_decide as Hin; [done|].
        apply NoDup_app. split_and!; [done | | apply NoDup_singleton].
        by intros x Hx ->%list_elem_of_singleton.
      - apply leftover_length. }
  all: legacy_unfold;
    preserve_with ltac:(first
      [ done
      | intros; match goal with H : _ ∧ _ |- _ => destruct H as [? ?] end;
        split; [by apply remove_first_NoDup
               | unfold queue_short in *; cbn;
                 etrans; [apply remove_first_length|done]] ]).
Qed.

Lemma legacy_dispatch_no_self w cur ev :
  hoare (λ s, queue_NoDup s ∧ no_self_match s) (LegacyLoop.dispatch w cur ev) no_self_match.
Proof.
  destruct ev; cbn [LegacyLoop.dispatch].
  4:{ intros s [Hq Hm]. rewrite legacy_quick_match_final.
      unfold no_self_match, legacy_drained. cbn [matches].
      apply no_self_foldl.
      - intros c [Hc _]%list_elem_of_In%filter_In. apply list_elem_of_In in Hc.
        revert Hc. apply couples_distinct.
        case_bool_decide as Hin; [done|].
        apply NoDup_app. split_and!; [done | | apply NoDup_singleton].
        by intros x Hx ->%list_elem_of_singleton.
      - by case_bool_decide. }
  5:{ intros s [_ Hs].
      apply (legacy_join_final cur gameId s no_self_match); [done|]. intros g Hg Hh.
      unfold no_self_match.
      pose proof (join_matches s cur gameId) as Hj. unfold join_check in Hj.
      rewrite Hg, bool_decide_eq_false_2 in Hj by done.
      destruct (truthy_opt (guest g)); destruct Hj as [_ ->]; [done|].
      by apply no_self_install. }
  all: (apply (hoare_weaken no_self_match); [by intros ? [_ ?]|]);
    legacy_unfold; preserve_with ltac:(first [ done | by apply no_self_delete ]).
Qed.

Lemma legacy_play_online_choices_valid cur c :
  preserved choices_valid (Legacy.play_online cur c).
Proof.
  unfold Legacy.play_online. destruct (valid_choice c) eqn:Hc; cbn [negb];
    [|apply preserved_emit].
  unfold Legacy.announce_result. choices_kept.
Qed.

Lemma legacy_dispatch_choices_valid w cur ev :
  preserved choices_valid (LegacyLoop.dispatch w cur ev).
Proof.
  destruct ev; cbn [LegacyLoop.dispatch];
    try apply legacy_play_online_choices_valid;
    legacy_unfold; choices_kept.
  by apply legacy_drain_preserved.
Qed.

Lemma legacy_dispatch_guests_differ w cur ev :
  preserved guests_differ (LegacyLoop.dispatch w cur ev).
Proof.
  destruct ev; cbn [LegacyLoop.dispatch].
  6:{ intros s Hs.
      apply (legacy_join_final cur gameId s guests_differ); [done|]. intros g Hg Hh.
      destruct (truthy_opt (guest g)) eqn:Hgu.
      - assert (Hc : join_check s cur gameId = Some Full).
        { unfold join_check. by rewrite Hg, bool_decide_eq_false_2, Hgu. }
        destruct (join_refused _ _ _ _ Hc) as [_ ->]. by rewrite send_to_final.
      - assert (Hc : join_check s cur gameId = None).
        { unfold join_check. by rewrite Hg, bool_decide_eq_false_2, Hgu. }
        destruct (join_accepted_lobbies _ _ _ _ Hg Hc) as [_ Hfin].
        intros t' g'. rewrite Hfin. intros [[_ <-] | [_ Ht]]%lookup_insert_Some.
        + cbn. congruence.
        + by apply (Hs t'). }
  all: legacy_unfold;
    preserve_with ltac:(first [ done | by apply guests_differ_create
                              | by apply guests_differ_remove_hosted ]).
  by apply legacy_drain_preserved.
Qed.

(** X18. The guest-only server keeps the same four invariants: in every state it
    reaches, at most one name waits in the queue, nobody is matched with
    oneself, every pending choice is a recognised symbol, and no lobby has
    its host as guest. *)
Theorem legacy_invariants_run (W : LegacyLoop.world) :
  LegacyLoop.reachable W →
  let s := LegacyLoop.tables W in
  (length (quickMatchQueue s) ≤ 1)%nat
  ∧ (∀ x, matches s !! x ≠ Some x)
  ∧ (∀ x p c, players s !! x = Some p → choice p = Some c → valid_choice c = true)
  ∧ (∀ t g, privateGames s !! t = Some g → guest g ≠ Some (host g)).
Proof.
  intros [evs Hrun] s.
  assert (Hq : (queue_NoDup s ∧ queue_short s) ∧ no_self_match s).
  { apply (legacy_run_invariant (λ s, (queue_NoDup s ∧ queue_short s) ∧ no_self_match s))
      with evs LegacyLoop.boot; [| |done].
    - intros w c ev s0 [Hs0 Hm0]. split.
      + by apply legacy_dispatch_queue.
      + apply legacy_dispatch_no_self. split; [apply Hs0 | done].
    - split; [split; [apply NoDup_nil_2 | unfold queue_short; cbn; lia] | by intros x]. }
  split_and!.
  - apply Hq.
  - apply Hq.
  - apply (legacy_run_invariant _ legacy_dispatch_choices_valid evs LegacyLoop.boot W);
      [by intros x|done].
  - apply (legacy_run_invariant _ legacy_dispatch_guests_differ evs LegacyLoop.boot W);
      [by intros x|done].
Qed.

Lemma legacy_invariants_run_witness :
  ∃ W, LegacyLoop.run [(1, LegacyLoop.In_login "alice"); (2, LegacyLoop.In_login "bob");
                       (1, LegacyLoop.In_quick_match); (2, LegacyLoop.In_quick_match)]
                      LegacyLoop.boot = Some W
       ∧ matches (LegacyLoop.tables W) !! "alice" ≠ Some "alice".
Proof.
  eexists. split; [vm_compute; reflexivity|].
  apply legacy_invariants_run.
  exists [(1, LegacyLoop.In_login "alice"); (2, LegacyLoop.In_login "bob");
          (1, LegacyLoop.In_quick_match); (2, LegacyLoop.In_quick_match)].
  vm_compute. reflexivity.
Defined.

(** ** Logging in again on the same connection *)

(** X19. A guest login on a connection that already acts under a registered name
    [x], asking for a free name [y], registers [y] and rebinds the
    connection to [y] without unregistering [x]. When the connection then
    closes, [x] stays in [players] although no connection acts under it any
    more (if none other did); [y] is removed if it is not the empty string,
    and if it is, [close] does nothing and [y] stays registered too. *)
Theorem relogin_leaves_old_name (W : world) (w : conn) (x y : string)
    (tok : option string) (px : player) :
  sessions W !! w = Some (Session x tok) →
  (∀ w' c, w' ≠ w → sessions W !! w' = Some c → currentPlayer c ≠ x) →
  players (tables W) !! x = Some px →
  players (tables W) !! y = None →
  ∃ W1 W2 t1 t2,
    on_event w (guest_login y) W = Some (W1, t1)
    ∧ players (tables W1) !! x = Some px
    ∧ players (tables W1) !! y = Some (Player w None)
    ∧ on_event w In_close W1 = Some (W2, t2)
    ∧ players (tables W2) !! x = Some px
    ∧ (truthy_str y = true → players (tables W2) !! y = None)
    ∧ (truthy_str y = false → tables W2 = tables W1 ∧ t2 = [])
    ∧ ∀ w' c, sessions W2 !! w' = Some c → currentPlayer c ≠ x.
Proof.
  intros Hw Hothers Hx Hy.
  assert (Hxy : x ≠ y) by congruence.
  set (s1 := with_players (<[y := Player w None]>) (tables W)).
  set (t1 := [DbEnsurePlayer y; Send w (login_success None None);
              BroadcastRanking; BroadcastOnlineCount (S (size (players (tables W))))]).
  assert (Hlog : login w None y None (AuthErr "") (tables W) = (Some tt, s1, t1)).
  { unfold login. cbn [truthy_opt]. rewrite andb_false_r.
    by apply login_guest_fresh_run. }
  set (W1 := World s1 (<[w := Session y tok]> (sessions W))).
  assert (Hev1 : on_event w (guest_login y) W = Some (W1, t1)).
  { unfold on_event, guest_login. rewrite Hlog, Hw. cbn. by rewrite andb_false_r. }
  assert (Hev2 : on_event w In_close W1
                 = Some (World (final (close y s1)) (delete w (sessions W1)),
                         trace (close y s1))).
  { unfold on_event. cbn [sessions W1]. by rewrite lookup_insert_eq. }
  exists W1, (World (final (close y s1)) (delete w (sessions W1))), t1, (trace (close y s1)).
  split_and!; try done.
  - cbn. by rewrite lookup_insert_ne.
  - cbn. by rewrite lookup_insert_eq.
  - cbn [tables]. destruct (truthy_str y) eqn:Hty.
    + rewrite close_run by done. cbn. by rewrite lookup_delete_ne, lookup_insert_ne.
    + unfold close. rewrite Hty. cbn. by rewrite lookup_insert_ne.
  - intros Hty. cbn [tables]. rewrite close_run by done. cbn. apply lookup_delete_eq.
  - intros Hty. cbn [tables]. unfold close. by rewrite Hty.
  - intros w' c. cbn [sessions W1].
    intros [Hne Hc]%lookup_delete_Some. rewrite lookup_insert_ne in Hc by done.
    by eapply Hothers.
Qed.

Lemma relogin_leaves_old_name_witness :
  ∃ W1 W2 t1 t2,
    on_event 1 (guest_login "bob")
             (World (State {["alice" := Player 1 None]} ∅ [] ∅ ∅ ∅ ∅)
                    {[1 := Session "alice" None]}) = Some (W1, t1)
    ∧ players (tables W1) !! "alice" = Some (Player 1 None)
    ∧ players (tables W1) !! "bob" = Some (Player 1 None)
    ∧ on_event 1 In_close W1 = Some (W2, t2)
    ∧ players (tables W2) !! "alice" = Some (Player 1 None)
    ∧ players (tables W2) !! "bob" = None
    ∧ ∀ w' c, sessions W2 !! w' = Some c → currentPlayer c ≠ "alice".
Proof.
  destruct (relogin_leaves_old_name
              (World (State {["alice" := Player 1 None]} ∅ [] ∅ ∅ ∅ ∅)
                     {[1 := Session "alice" None]}) 1 "alice" "bob" None (Player 1 None))
    as (W1 & W2 & t1 & t2 & H1 & H2 & H3 & H4 & H5 & H6 & _ & H8);
    [reflexivity | | reflexivity | reflexivity |].
  { intros w' c Hne. cbn [sessions]. intros [? _]%lookup_singleton_Some. congruence. }
  exists W1, W2, t1, t2. split_and!; [done..| by apply H6 | done].
Defined.

(** ** A choice submitted while waiting *)

Lemma play_online_alone (s : state) (cur c : string) (p : player) :
  valid_choice c = true →
  players s !! cur = Some p →
  truthy_opt (matches s !! cur) = false →
  play_online cur c s = (Some tt, with_players (<[cur := Player (ws p) (Some c)]>) s, []).
Proof.
  intros Hc Hp Hm. unfold play_online. rewrite Hc. cbn [negb].
  rewrite bind_get, (has_player_lookup _ _ _ Hp).
  unfold bind, set_choice, get. rewrite Hp.
  change (matches (with_players (<[cur := Player (ws p) (Some c)]>) s)) with (matches s).
  destruct (matches s !! cur) as [o|]; [|done]. cbn in Hm. by rewrite Hm.
Qed.

(** X20. Pending choices outlive the wait. [play_online] stores a recognised
    choice for a registered sender who has no opponent, and pairing does
    not reset it. Take two different registered participants [a] and [c]
    with no pending choice, [a] having no opponent and a name that is not
    the empty string (the submission of [c] tests the name of its
    opponent for truthiness), and an empty queue. When [a] queues and
    submits the recognised symbol [ca] while waiting, and [c] then queues
    and submits the recognised symbol [cc], the round is resolved at once
    by that first submission of [c], against the choice [a] made before
    the match existed: both get a [game_result], the score goes to the
    winner, and both pending choices are cleared. *)
Theorem choice_made_while_waiting (s : state) (a c ca cc : string) (wa wc : conn) :
  quickMatchQueue s = [] →
  players s !! a = Some (Player wa None) →
  players s !! c = Some (Player wc None) →
  matches s !! a = None →
  a ≠ c →
  truthy_str a = true →
  valid_choice ca = true →
  valid_choice cc = true →
  ∃ m1 m2, is_game_result m1 ∧ is_game_result m2 ∧
    (quick_match a;; play_online a ca;; quick_match c;; play_online c cc)%handler s
      = (Some tt,
         State (players s) (playerModes s) [] (privateGames s)
               (<[c := a]> (<[a := c]> (matches s)))
               (<[c := JBool false]> (<[a := JBool false]> (playerReadyState s)))
               (authenticatedUsers s),
         [Send wa (game_joined c); Send wc (game_joined a)]
         ++ round_score a ca c cc
         ++ [Send wc m1; Send wa m2; BroadcastRanking]).
Proof.
  intros Hq Hpa Hpc Hma Hne Ha Hca Hcc.
  set (s1 := with_queue (λ _, [a]) s).
  set (s2 := with_players (<[a := Player wa (Some ca)]>) s1).
  set (s3 := State (players s2) (playerModes s2) [] (privateGames s2)
                   (<[c := a]> (<[a := c]> (matches s2)))
                   (<[c := JBool false]> (<[a := JBool false]> (playerReadyState s2)))
                   (authenticatedUsers s2)).
  assert (H1 : quick_match a s = (Some tt, s1, [])).
  { by destruct (quick_match_waits_run s a) as [[-> _] _]. }
  assert (H2 : play_online a ca s1 = (Some tt, s2, [])).
  { apply (play_online_alone s1 a ca (Player wa None)); [done | done |].
    change (matches s1) with (matches s). by rewrite Hma. }
  assert (Hpa2 : players s2 !! a = Some (Player wa (Some ca)))
    by (cbn; apply lookup_insert_eq).
  assert (Hpc2 : players s2 !! c = Some (Player wc None))
    by (cbn; by rewrite lookup_insert_ne).
  assert (H3 : quick_match c s2
               = (Some tt, s3, [Send wa (game_joined c); Send wc (game_joined a)])).
  { by destruct (quick_match_pairs_run s2 a c (Player wa (Some ca)) (Player wc None))
      as [-> _]. }
  destruct (play_online_resolves s3 c a cc (Player wc None) (Player wa (Some ca))
              Hcc Hpc2 ltac:(cbn; apply lookup_insert_eq) Hne Hpa2 ca Ha eq_refl)
    as (m1 & m2 & Hm1 & Hm2 & H4).
  { by destruct (valid_choice_cases ca Hca) as [-> | [-> | ->]]. }
  exists m1, m2. split_and!; [done..|].
  rewrite (bind_ok _ _ _ _ _ _ H1). cbv beta.
  rewrite (bind_ok _ _ _ _ _ _ H2). cbv beta.
  rewrite (bind_ok _ _ _ _ _ _ H3). cbv beta.
  rewrite H4. cbn [fst snd ws app].
  rewrite score_updates_swap by done. f_equal. f_equal.
  destruct s as [P Md Q G M R A]. unfold s3, s2, s1, with_players, with_queue.
  cbn in *. f_equal.
  apply map_eq. intros k.
  destruct (decide (k = a)) as [->|Hka]; [by rewrite lookup_insert_eq|].
  rewrite lookup_insert_ne by done.
  destruct (decide (k = c)) as [->|Hkc]; [by rewrite lookup_insert_eq|].
  by rewrite !lookup_insert_ne.
Qed.

Lemma choice_made_while_waiting_witness :
  let s := State {["alice" := Player 1 None; "carol" := Player 3 None]} ∅ [] ∅ ∅ ∅ ∅ in
  ∃ m1 m2,
    trace ((quick_match "alice";; play_online "alice" "pierre";;
            quick_match "carol";; play_online "carol" "feuille")%handler s)
      = [Send 1 (game_joined "carol"); Send 3 (game_joined "alice");
         DbIncrementScore "carol"; Send 3 m1; Send 1 m2; BroadcastRanking].
Proof.
  intros s.
  destruct (choice_made_while_waiting s "alice" "carol" "pierre" "feuille" 1 3)
    as (m1 & m2 & _ & _ & H);
    [reflexivity | reflexivity | reflexivity | reflexivity | discriminate
    | reflexivity | reflexivity | reflexivity |].
  exists m1, m2. by rewrite H.
Defined.
